(** * uop-webServer: the stats pipeline of [server.js]

    A shallow embedding of the Express application of [src/server.js]: the
    validator, the five stats middlewares, the read endpoints and the reset
    endpoint, as functions on an explicit store ([app.locals]).

    Conventions of the embedding.
    - Strings are sequences of bytes (UTF-8); [undefined] is [None].
    - A JavaScript Number is [JS.Number]: NaN, the infinities, or a finite
      value carried as a rational (every finite double is one).
    - Query values are strings or absent, as the route and the validator
      expect them ([req.query.square], [req.query.text]). For a repeated or
      bracketed key the query parser hands an array or an object instead:
      as a dimension the code coerces it through its string form, as a text
      it records it by identity. Such requests are not among the requests
      of this development; the statements that depend on the text being a
      string say so.
    - Objects used as tables ([topSizes], [topReferrers]) are finite maps of
      own properties, read through [JS.get], which also sees the properties
      every object literal inherits from [Object.prototype].
    - Counters are mathematical integers. *)

From Stdlib Require Import ZArith QArith Ascii.
From stdpp Require Import gmap strings list pretty sorting.

Close Scope Q_scope.
Open Scope Z_scope.
Set Warnings "-clear-no-such-hyp".

(** ** JavaScript primitives the server relies on *)

Module JS.

(** Numbers. *)
Inductive Number : Type :=
| NaN
| PosInfinity
| NegInfinity
| Finite (q : Q).

Definition of_Z (z : Z) : Number := Finite (inject_Z z).

(** [a > b] for an integer constant [b]; false on NaN. *)
Definition gt (a : Number) (b : Z) : bool :=
  match a with
  | NaN => false
  | PosInfinity => true
  | NegInfinity => false
  | Finite q => b * Z.pos (Qden q) <? Qnum q
  end.

(** [Number.isInteger(a)]. *)
Definition isInteger (a : Number) : bool :=
  match a with
  | Finite q => Qnum q mod Z.pos (Qden q) =? 0
  | _ => false
  end.

(** What the two tests above decide, on the value of the number: being
    greater than an integer, and being a positive integer. *)
Definition greater_than (a : Number) (b : Z) : Prop :=
  match a with
  | PosInfinity => True
  | Finite q => (inject_Z b < q)%Q
  | _ => False
  end.

Definition positive_integer (a : Number) : Prop :=
  match a with
  | Finite q => ∃ z : Z, 0 < z ∧ (q == inject_Z z)%Q
  | _ => False
  end.

(** The integer an integral number denotes (its floor in general). *)
Definition to_Z (a : Number) : Z :=
  match a with
  | Finite q => Qnum q / Z.pos (Qden q)
  | _ => 0
  end.

(** Truthiness of a value that is a string or [undefined]. *)
Definition truthy (v : option string) : bool :=
  match v with
  | Some s => negb (String.eqb s "")
  | None => false
  end.

(** A value of [res.locals.queries]: [undefined], an integral number or a
    string; its truthiness and its conversion to a string. *)
Inductive Value : Type :=
| Undef
| Num (z : Z)
| Str (s : string).

Definition truthy_value (v : Value) : bool :=
  match v with
  | Undef => false
  | Num z => negb (z =? 0)
  | Str s => negb (String.eqb s "")
  end.

(** Unary plus on a value that is a string or [undefined], given the
    coercion of strings: [+undefined] is NaN. *)
Definition plus (ToNumber : string → Number) (v : option string) : Number :=
  match v with
  | Some s => ToNumber s
  | None => NaN
  end.

(** Reading a decimal literal: digits, then an optional fraction. *)
Definition digit_value (c : ascii) : option Z :=
  let n := N_of_ascii c in
  if ((48 <=? n) && (n <=? 57))%N then Some (Z.of_N n - 48) else None.

Fixpoint fraction_digits (num : Z) (den : positive) (s : string)
  : option Q :=
  match s with
  | EmptyString => Some (Qmake num den)
  | String c r =>
      match digit_value c with
      | Some d => fraction_digits (10 * num + d) (10 * den) r
      | None => None
      end
  end.

Fixpoint integer_digits (num : Z) (s : string) : option Q :=
  match s with
  | EmptyString => Some (inject_Z num)
  | String c r =>
      if Ascii.eqb c "." then
        match r with
        | EmptyString => Some (inject_Z num)
        | _ => fraction_digits num 1 r
        end
      else
        match digit_value c with
        | Some d => integer_digits (10 * num + d) r
        | None => None
        end
  end.

Definition unsigned_literal (s : string) : option Q :=
  match s with
  | String c _ =>
      match digit_value c with
      | Some _ => integer_digits 0 s
      | None => None
      end
  | EmptyString => None
  end.

(** A coercion to run the handlers on concrete requests: it reads the empty
    string as 0 and a decimal literal (an optional [-], digits, an optional
    fraction) as its exact value, which is what [ToNumber] does on the short
    literals used below; it answers NaN on every other string, and stands
    for [ToNumber] on those literals only. *)
Definition decimalToNumber (s : string) : Number :=
  match s with
  | EmptyString => Finite 0
  | String "-" r => from_option (λ q, Finite (Qopp q)) NaN (unsigned_literal r)
  | _ => from_option Finite NaN (unsigned_literal s)
  end.

(** Template-literal rendering of an integral number. *)
Definition show (z : Z) : string := pretty z.

Definition to_string (v : Value) : string :=
  match v with
  | Undef => "undefined"
  | Num z => show z
  | Str s => s
  end.

(** [encodeURIComponent]: every byte outside the unreserved set becomes
    [%XX] with upper-case hexadecimal digits. *)
Definition unreserved (c : ascii) : bool :=
  let n := N_of_ascii c in
  ((65 <=? n) && (n <=? 90) || (97 <=? n) && (n <=? 122)
   || (48 <=? n) && (n <=? 57))%N
  || bool_decide (c ∈ ["-"; "_"; "."; "!"; "~"; "*"; "'"; "("; ")"]%char).

Definition hex_digit (n : N) : ascii :=
  if (n <? 10)%N then ascii_of_N (48 + n) else ascii_of_N (55 + n).

Fixpoint encodeURIComponent (s : string) : string :=
  match s with
  | EmptyString => EmptyString
  | String c r =>
      if unreserved c then String c (encodeURIComponent r)
      else String "%" (String (hex_digit (N_of_ascii c / 16))
                         (String (hex_digit (N_of_ascii c mod 16))
                            (encodeURIComponent r)))
  end.

(** [parts.join(sep)]. *)
Fixpoint join (sep : string) (parts : list string) : string :=
  match parts with
  | [] => ""
  | [p] => p
  | p :: ps => p +:+ sep +:+ join sep ps
  end.

Section Arrays.
Context {A : Type} `{EqDecision A}.

(** [new Set(l)] keeps the elements in insertion order and ignores a
    value it already holds; [set_add] is one [add]. *)
Definition set_add (acc : list A) (x : A) : list A :=
  if bool_decide (x ∈ acc) then acc else acc ++ [x].

(** [[...new Set(l)]]. *)
Definition spread_Set (l : list A) : list A := foldl set_add [] l.

(** [l.findIndex(p)]: the first index whose element satisfies [p], or
    [-1]. *)
Fixpoint findIndex_from (p : A → bool) (i : Z) (l : list A) : Z :=
  match l with
  | [] => -1
  | x :: l' => if p x then i else findIndex_from p (i + 1) l'
  end.

Definition findIndex (p : A → bool) (l : list A) : Z := findIndex_from p 0 l.

(** [l.filter((x, i) => p x i)]. *)
Fixpoint filter_from (p : A → Z → bool) (i : Z) (l : list A) : list A :=
  match l with
  | [] => []
  | x :: l' =>
      if p x i then x :: filter_from p (i + 1) l'
      else filter_from p (i + 1) l'
  end.

Definition filter_indexed (p : A → Z → bool) (l : list A) : list A :=
  filter_from p 0 l.

(** [l.sort((a, b) => key b - key a)]: the stable sort by descending
    key. An element goes before the first one whose key is not larger
    than its own, so equal keys keep their order. *)
Fixpoint sort_insert (key : A → Z) (x : A) (l : list A) : list A :=
  match l with
  | [] => [x]
  | y :: l' =>
      if key y - key x <=? 0 then x :: y :: l'
      else y :: sort_insert key x l'
  end.

Fixpoint sort_desc (key : A → Z) (l : list A) : list A :=
  match l with
  | [] => []
  | x :: l' => sort_insert key x (sort_desc key l')
  end.

(** The elements of [l] that are not in [seen], each at its first
    occurrence: what both de-duplications of the server compute. *)
Fixpoint fresh (seen l : list A) : list A :=
  match l with
  | [] => []
  | x :: l' =>
      if bool_decide (x ∈ seen) then fresh seen l' else x :: fresh (x :: seen) l'
  end.

(** The order of a list sorted by descending key. *)
Definition desc (key : A → Z) : relation A := λ a b, key b ≤ key a.

(** [l.slice(0, n)]. *)
Definition slice0 (n : nat) (l : list A) : list A := take n l.
End Arrays.

(** The property names an object literal inherits from
    [Object.prototype]; each of them reads as a truthy value (a function,
    or the prototype itself for [__proto__]). *)
Definition prototype_names : list string :=
  ["constructor"; "__defineGetter__"; "__defineSetter__"; "hasOwnProperty";
   "__lookupGetter__"; "__lookupSetter__"; "isPrototypeOf";
   "propertyIsEnumerable"; "toString"; "valueOf"; "__proto__";
   "toLocaleString"].

Definition inherited (k : string) : bool := bool_decide (k ∈ prototype_names).

(** What [o[k]] reads on a table [o] of records. *)
Inductive Lookup (R : Type) : Type :=
| Own (r : R)
| Inherited
| Undefined.
Arguments Own {R} r.
Arguments Inherited {R}.
Arguments Undefined {R}.

Definition get {R : Type} (o : gmap string R) (k : string) : Lookup R :=
  match o !! k with
  | Some r => Own r
  | None => if inherited k then Inherited else Undefined
  end.

(** [Object.values(o)]: the own values. The map enumerates them in an
    order of its own, the engine in insertion order; results about a served
    list are stated for every enumeration of the table. *)
Definition values {R : Type} (o : gmap string R) : list R :=
  (map_to_list o).*2.

(** [if (!o[k]) { o[k] = r }]. *)
Definition ensure {R : Type} (r : R) (k : string) (o : gmap string R)
  : gmap string R :=
  match get o k with
  | Undefined => <[k := r]> o
  | _ => o
  end.

(** [o[k].n += 1], where [bump] adds one to the field [n] of a record. On
    an inherited value the assignment lands on that built-in object and the
    table keeps its own properties; reading [.n] of [undefined] would throw,
    which cannot happen after [ensure]. *)
Definition increment {R : Type} (bump : R → R) (k : string)
  (o : gmap string R) : gmap string R :=
  match get o k with
  | Own r => <[k := bump r]> o
  | _ => o
  end.

End JS.

(** ** The data of the server *)

(** An entry of [recentSizes]: [{ w, h }]. *)
Record Size : Type := mkSize { size_w : Z; size_h : Z }.

(** A record of [topSizes]: [{ w, h, n }]. *)
Record TopSize : Type := mkTopSize { ts_w : Z; ts_h : Z; ts_n : Z }.

(** A record of [topReferrers]: [{ ref, n }]. *)
Record TopReferrer : Type := mkTopReferrer { tr_ref : string; tr_n : Z }.

#[global] Instance Size_eq_dec : EqDecision Size.
Proof. solve_decision. Defined.
#[global] Instance TopSize_eq_dec : EqDecision TopSize.
Proof. solve_decision. Defined.
#[global] Instance TopReferrer_eq_dec : EqDecision TopReferrer.
Proof. solve_decision. Defined.

(** [app.locals]: the five collections. *)
Record Store : Type := mkStore {
  recentPaths : list string;
  recentSizes : list Size;
  recentTexts : list string;
  topSizes : gmap string TopSize;
  topReferrers : gmap string TopReferrer
}.

(** The values the global variables start with. *)
Definition initial : Store :=
  {| recentPaths := []; recentSizes := []; recentTexts := [];
     topSizes := ∅; topReferrers := ∅ |}.

Definition set_recentPaths (v : list string) (app : Store) : Store :=
  {| recentPaths := v; recentSizes := recentSizes app;
     recentTexts := recentTexts app; topSizes := topSizes app;
     topReferrers := topReferrers app |}.

Definition set_recentSizes (v : list Size) (app : Store) : Store :=
  {| recentPaths := recentPaths app; recentSizes := v;
     recentTexts := recentTexts app; topSizes := topSizes app;
     topReferrers := topReferrers app |}.

Definition set_recentTexts (v : list string) (app : Store) : Store :=
  {| recentPaths := recentPaths app; recentSizes := recentSizes app;
     recentTexts := v; topSizes := topSizes app;
     topReferrers := topReferrers app |}.

Definition set_topSizes (v : gmap string TopSize) (app : Store) : Store :=
  {| recentPaths := recentPaths app; recentSizes := recentSizes app;
     recentTexts := recentTexts app; topSizes := v;
     topReferrers := topReferrers app |}.

Definition set_topReferrers (v : gmap string TopReferrer) (app : Store)
  : Store :=
  {| recentPaths := recentPaths app; recentSizes := recentSizes app;
     recentTexts := recentTexts app; topSizes := topSizes app;
     topReferrers := v |}.

(** What the image route reads of a request: [req.path], the two path
    parameters, the two query values and the referrer header. The query
    values are the ones that are strings, or absent. *)
Record Request : Type := mkRequest {
  req_path : string;
  req_width : string;
  req_height : string;
  req_square : option string;
  req_text : option string;
  req_referer : option string
}.

(** Requests used below to run the handlers. *)
Definition image_request (w h : string) (sq tx rf : option string) : Request :=
  {| req_path := "/img/" +:+ w +:+ "/" +:+ h;
     req_width := w; req_height := h;
     req_square := sq; req_text := tx; req_referer := rf |}.

(** An imager that always sends its image. *)
Definition imager_sends : Z → Z → option Z → option string → bool :=
  λ _ _ _ _, true.

(** [res.locals] once the validator has passed: [params] and [queries]. The
    dimensions are integral there, and are kept as integers. *)
Record Params : Type := mkParams { width : Z; height : Z }.
Record Queries : Type := mkQueries { square : option Z; text : option string }.
Record Locals : Type := mkLocals { params : Params; queries : Queries }.

(** What a handler sends. *)
Inductive Payload : Type :=
| Paths (l : list string)
| Sizes (l : list Size)
| Texts (l : list string)
| TopSizes (l : list TopSize)
| TopReferrers (l : list TopReferrer).

Inductive Response : Type :=
| SendStatus (code : Z)
| Json (p : Payload)
| Image (width height : Z) (square : option Z) (text : option string).

(** The entries of a payload, forgetting their type: how many there are is
    all an empty array is about. *)
Definition payload_length (p : Payload) : nat :=
  match p with
  | Paths l => length l
  | Sizes l => length l
  | Texts l => length l
  | TopSizes l => length l
  | TopReferrers l => length l
  end.

(** Validated [res.locals] without query values, a list of ten recorded
    sizes, newest first, and eleven image requests for eleven sizes. *)
Definition plain_locals (w h : Z) : Locals :=
  {| params := {| width := w; height := h |};
     queries := {| square := None; text := None |} |}.

Definition ten_sizes : list Size :=
  (λ w, {| size_w := w; size_h := 1 |}) <$> [10; 9; 8; 7; 6; 5; 4; 3; 2; 1].

Definition store_of_ten_sizes : Store :=
  {| recentPaths := []; recentSizes := ten_sizes; recentTexts := [];
     topSizes := ∅; topReferrers := ∅ |}.

(** ** The handlers *)

Section Server.

(** The coercion of a string to a number (the engine's [ToNumber]). *)
Variable ToNumber : string → JS.Number.

(** [imager.sendImage], of the module [./imager/imager]: whether it sends
    the image ([true]) or throws. *)
Variable sendImage : Z → Z → option Z → option string → bool.

(** The dimensions the validator checks: width, height, and square when
    the query has it (also with an empty value). *)
Definition square_in_scope (square : option string) : bool :=
  JS.truthy square || bool_decide (square = Some "").

Definition dimensions (req : Request) : list JS.Number :=
  let width := ToNumber (req_width req) in
  let height := ToNumber (req_height req) in
  let square := req_square req in
  if square_in_scope square
  then [width; height] ++ [JS.plus ToNumber square]
  else [width; height].

(** The validator: the answer it sends, or the [res.locals] it hands to the
    next middleware. [square] stays [undefined] when it is out of scope (a
    string or [undefined] that is neither truthy nor empty is [undefined]). *)
Definition validateInputs (req : Request) : Response + Locals :=
  let width := ToNumber (req_width req) in
  let height := ToNumber (req_height req) in
  let square := req_square req in
  let text :=
    if bool_decide (req_text req = Some "+") then Some " " else req_text req in
  let square :=
    if square_in_scope square then Some (JS.plus ToNumber square) else None in
  let isTooBig := existsb (λ size, JS.gt size 2000) (dimensions req) in
  if isTooBig then inl (SendStatus 403)
  else
    let isValid :=
      forallb (λ size, JS.gt size 0 && JS.isInteger size) (dimensions req) in
    if negb isValid then inl (SendStatus 400)
    else
      inr {| params := {| width := JS.to_Z width; height := JS.to_Z height |};
             queries := {| square := JS.to_Z <$> square; text := text |} |}.

(** [Object.keys(res.locals.queries)] with the value of each key. *)
Definition query_entries (q : Queries) : list (string * JS.Value) :=
  [("square", from_option JS.Num JS.Undef (square q));
   ("text", from_option JS.Str JS.Undef (text q))].

Definition applyRecentPaths (req : Request) (res : Locals) (app : Store)
  : Store :=
  let recentPaths := recentPaths app in
  let queriesStr :=
    JS.join "&"
      (map (λ kv, kv.1 +:+ "=" +:+ JS.encodeURIComponent (JS.to_string kv.2))
         (List.filter (λ kv, JS.truthy_value kv.2)
            (query_entries (queries res)))) in
  let questionMark := if JS.truthy (Some queriesStr) then "?" else "" in
  let url := req_path req +:+ questionMark +:+ queriesStr in
  let recentPaths := url :: recentPaths in
  let firstTenUniqueRecentPaths := JS.slice0 10 (JS.spread_Set recentPaths) in
  set_recentPaths firstTenUniqueRecentPaths app.

Definition same_size (a b : Size) : bool :=
  (size_w a =? size_w b) && (size_h a =? size_h b).

Definition applyRecentSizes (res : Locals) (app : Store) : Store :=
  let recentSizes := recentSizes app in
  let sizes :=
    {| size_w := width (params res); size_h := height (params res) |} in
  let recentSizes := sizes :: recentSizes in
  let uniqueRecentSizes :=
    JS.filter_indexed
      (λ sizes i,
         i =? JS.findIndex (λ size, same_size size sizes) recentSizes)
      recentSizes in
  set_recentSizes (JS.slice0 10 uniqueRecentSizes) app.

Definition applyRecentTexts (res : Locals) (app : Store) : Store :=
  let recentTexts := recentTexts app in
  let recentTexts :=
    match text (queries res) with
    | Some t => if JS.truthy (Some t) then t :: recentTexts else recentTexts
    | None => recentTexts
    end in
  let firstTenUniqueRecentTexts := JS.slice0 10 (JS.spread_Set recentTexts) in
  set_recentTexts firstTenUniqueRecentTexts app.

Definition sizeKey (width height : Z) : string :=
  JS.show width +:+ "x" +:+ JS.show height.

Definition bump_size (r : TopSize) : TopSize :=
  {| ts_w := ts_w r; ts_h := ts_h r; ts_n := ts_n r + 1 |}.

Definition bump_referrer (r : TopReferrer) : TopReferrer :=
  {| tr_ref := tr_ref r; tr_n := tr_n r + 1 |}.

(** The count a table holds for a key: [n] of its record, 0 without one. *)
Definition count_of {R : Type} (n : R → Z) (o : gmap string R) (k : string)
  : Z :=
  from_option n 0 (o !! k).

Definition applyTopSizes (res : Locals) (app : Store) : Store :=
  let width := width (params res) in
  let height := height (params res) in
  let topSizes := topSizes app in
  let sizeKey := sizeKey width height in
  let topSizes :=
    JS.ensure {| ts_w := width; ts_h := height; ts_n := 0 |} sizeKey topSizes in
  let topSizes := JS.increment bump_size sizeKey topSizes in
  set_topSizes topSizes app.

Definition applyTopReferrers (req : Request) (app : Store) : Store :=
  let topReferrers := topReferrers app in
  let topReferrers :=
    match req_referer req with
    | Some referrerKey =>
        if JS.truthy (Some referrerKey) then
          JS.increment bump_referrer referrerKey
            (JS.ensure {| tr_ref := referrerKey; tr_n := 0 |} referrerKey
               topReferrers)
        else topReferrers
    | None => topReferrers
    end in
  set_topReferrers topReferrers app.

(** The objects the stages build: the entry of [recentSizes], and the new
    records of the two tables. *)
Definition sizes_of (res : Locals) : Size :=
  {| size_w := width (params res); size_h := height (params res) |}.

Definition new_size (res : Locals) : TopSize :=
  {| ts_w := width (params res); ts_h := height (params res); ts_n := 0 |}.

Definition new_referrer (k : string) : TopReferrer :=
  {| tr_ref := k; tr_n := 0 |}.

(** Whether a string has the letter [x] in it, as every size key does. *)
Fixpoint has_x (s : string) : bool :=
  match s with
  | EmptyString => false
  | String c r => Ascii.eqb c "x" || has_x r
  end.

Definition serveImage (res : Locals) : Response :=
  let p := params res in
  let q := queries res in
  if sendImage (width p) (height p) (square q) (text q)
  then Image (width p) (height p) (square q) (text q)
  else SendStatus 500.

(** [app.get('/img/:width/:height', validateInputs, ..., serveImage)]: a
    middleware that does not call [next] ends the chain. *)
Definition get_img (req : Request) (app : Store) : Response * Store :=
  match validateInputs req with
  | inl r => (r, app)
  | inr res =>
      let app := applyRecentPaths req res app in
      let app := applyRecentSizes res app in
      let app := applyRecentTexts res app in
      let app := applyTopSizes res app in
      let app := applyTopReferrers req app in
      (serveImage res, app)
  end.

Definition serveRecentPaths (app : Store) : Response * Store :=
  (Json (Paths (recentPaths app)), app).

Definition serveRecentSizes (app : Store) : Response * Store :=
  (Json (Sizes (recentSizes app)), app).

Definition serveRecentTexts (app : Store) : Response * Store :=
  (Json (Texts (recentTexts app)), app).

(** The list a top endpoint sends, from an enumeration of the table. *)
Definition topTen {R : Type} (n : R → Z) (records : list R) : list R :=
  JS.slice0 10 (JS.sort_desc n records).

Definition serveTopSizes (app : Store) : Response * Store :=
  let topSizesList := topTen ts_n (JS.values (topSizes app)) in
  (Json (TopSizes topSizesList), app).

Definition serveTopReferrers (app : Store) : Response * Store :=
  let topReferrersList := topTen tr_n (JS.values (topReferrers app)) in
  (Json (TopReferrers topReferrersList), app).

Definition resetStats (app : Store) : Response * Store :=
  (SendStatus 200,
   {| recentPaths := []; recentSizes := []; recentTexts := [];
      topSizes := ∅; topReferrers := ∅ |}).

(** The routes of the application. *)
Inductive Call : Type :=
| GET_img (req : Request)
| GET_stats_paths_recent
| GET_stats_sizes_recent
| GET_stats_texts_recent
| GET_stats_sizes_top
| GET_stats_referrers_top
| DELETE_stats.

Definition handle (c : Call) (app : Store) : Response * Store :=
  match c with
  | GET_img req => get_img req app
  | GET_stats_paths_recent => serveRecentPaths app
  | GET_stats_sizes_recent => serveRecentSizes app
  | GET_stats_texts_recent => serveRecentTexts app
  | GET_stats_sizes_top => serveTopSizes app
  | GET_stats_referrers_top => serveTopReferrers app
  | DELETE_stats => resetStats app
  end.

(** The store after a sequence of calls, oldest first. *)
Definition run (cs : list Call) (app : Store) : Store :=
  foldl (λ app c, (handle c app).2) app cs.

(** The image requests that pass the validator, and the five reads. *)
Definition accepted (c : Call) : bool :=
  match c with
  | GET_img req =>
      match validateInputs req with
      | inr _ => true
      | inl _ => false
      end
  | _ => false
  end.

Definition is_read (c : Call) : bool :=
  match c with
  | GET_stats_paths_recent | GET_stats_sizes_recent | GET_stats_texts_recent
  | GET_stats_sizes_top | GET_stats_referrers_top => true
  | _ => false
  end.

(** A served list [out] ranks [records]: it has as many of them as there
    are, up to 10, by descending count, and the records left out are the
    rest, none with a larger count than a record sent. *)
Definition ranked {R : Type} (n : R → Z) (out records : list R) : Prop :=
  length out = (10 `min` length records)%nat
  ∧ StronglySorted (JS.desc n) out
  ∧ ∃ rest, out ++ rest ≡ₚ records ∧ ∀ a b, a ∈ out → b ∈ rest → n b ≤ n a.

(** Every record of both tables has a positive count. *)
Definition positive_counts (app : Store) : Prop :=
  (∀ k r, topSizes app !! k = Some r → 0 < ts_n r)
  ∧ (∀ k r, topReferrers app !! k = Some r → 0 < tr_n r).

(** Every record of [a] is still in [b], under its key, with a count that
    is not smaller. *)
Definition counts_le (a b : Store) : Prop :=
  (∀ k r, topSizes a !! k = Some r →
          ∃ r', topSizes b !! k = Some r' ∧ ts_n r ≤ ts_n r')
  ∧ (∀ k r, topReferrers a !! k = Some r →
            ∃ r', topReferrers b !! k = Some r' ∧ tr_n r ≤ tr_n r').

(** A number that is the integer [z]. *)
Definition denotes (a : JS.Number) (z : Z) : Prop :=
  match a with
  | JS.Finite q => (q == inject_Z z)%Q
  | _ => False
  end.

(** The URL [applyRecentPaths] records for a request. *)
Definition url_of (req : Request) (res : Locals) : string :=
  let queriesStr :=
    JS.join "&"
      (map (λ kv, kv.1 +:+ "=" +:+ JS.encodeURIComponent (JS.to_string kv.2))
         (List.filter (λ kv, JS.truthy_value kv.2)
            (query_entries (queries res)))) in
  let questionMark := if JS.truthy (Some queriesStr) then "?" else "" in
  req_path req +:+ questionMark +:+ queriesStr.

(** The query values a recorded URL shows: the falsy ones are left out. *)
Definition effective_square (res : Locals) : option Z :=
  match square (queries res) with
  | Some z => if z =? 0 then None else Some z
  | None => None
  end.

Definition effective_text (res : Locals) : option string :=
  match text (queries res) with
  | Some t => if String.eqb t "" then None else Some t
  | None => None
  end.

(** The value of a hexadecimal digit, to read a [%XX] back. *)
Definition unhex (c : ascii) : N :=
  let n := N_of_ascii c in
  if (n <? 58)%N then (n - 48)%N else (n - 55)%N.

(** The text [applyRecentTexts] records for a request, if any. *)
Definition text_of (res : Locals) : list string :=
  match text (queries res) with
  | Some t => if JS.truthy (Some t) then [t] else []
  | None => []
  end.

(** The accepted image requests since the last reset (or since the start),
    most recent first, each with its [res.locals]. *)
Definition log_call (log : list (Request * Locals)) (c : Call)
  : list (Request * Locals) :=
  match c with
  | GET_img req =>
      match validateInputs req with
      | inr res => (req, res) :: log
      | inl _ => log
      end
  | DELETE_stats => []
  | _ => log
  end.

Definition accepted_log (cs : list Call) : list (Request * Locals) :=
  foldl log_call [] cs.

(** The recent lists of a store, as what they keep of a history. *)
Definition keeps (app : Store) (log : list (Request * Locals)) : Prop :=
  recentPaths app
  = take 10 (JS.fresh [] ((λ e, url_of e.1 e.2) <$> log))
  ∧ recentSizes app = take 10 (JS.fresh [] ((λ e, sizes_of e.2) <$> log))
  ∧ recentTexts app
    = take 10 (JS.fresh [] (concat ((λ e, text_of e.2) <$> log))).

(** What the recent lists of a running process satisfy. *)
Definition recent_bounded (app : Store) : Prop :=
  (NoDup (recentPaths app) ∧ (length (recentPaths app) ≤ 10)%nat)
  ∧ (NoDup (recentSizes app) ∧ (length (recentSizes app) ≤ 10)%nat
     ∧ ∀ s, s ∈ recentSizes app →
            1 ≤ size_w s ≤ 2000 ∧ 1 ≤ size_h s ≤ 2000)
  ∧ (NoDup (recentTexts app) ∧ (length (recentTexts app) ≤ 10)%nat
     ∧ "" ∉ recentTexts app).

(** What the tables of a running process satisfy: a record sits under the
    key made of its own fields. *)
Definition tables_consistent (app : Store) : Prop :=
  (∀ k r, topSizes app !! k = Some r →
          k = sizeKey (ts_w r) (ts_h r)
          ∧ 1 ≤ ts_w r ≤ 2000 ∧ 1 ≤ ts_h r ≤ 2000)
  ∧ (∀ k r, topReferrers app !! k = Some r →
            tr_ref r = k ∧ k ≠ "" ∧ JS.inherited k = false).

(** How many requests of a history were for the size [(w, h)], and how many
    count for the referrer [k]: a referrer counts when it is the header of
    the request, is not empty and is not a name every object inherits. *)
Definition requests_for_size (w h : Z) (log : list (Request * Locals)) : nat :=
  length (filter (λ e, sizes_of e.2 = {| size_w := w; size_h := h |}) log).

(** Whether a request counts for the referrer [k]. *)
Definition counts_referrer (k : string) (req : Request) : bool :=
  bool_decide (req_referer req = Some k) && JS.truthy (Some k)
  && negb (JS.inherited k).

Definition requests_for_referrer (k : string) (log : list (Request * Locals))
  : nat :=
  length (filter (λ e, counts_referrer k e.1 = true) log).

(** The record a table holds for a key that [n] requests counted for. *)
Definition size_record (w h : Z) (n : nat) : option TopSize :=
  match n with
  | O => None
  | S _ => Some {| ts_w := w; ts_h := h; ts_n := Z.of_nat n |}
  end.

Definition referrer_record (k : string) (n : nat) : option TopReferrer :=
  match n with
  | O => None
  | S _ => Some {| tr_ref := k; tr_n := Z.of_nat n |}
  end.

(** The tables of a store, as the counts of a history. *)
Definition counted (app : Store) (log : list (Request * Locals)) : Prop :=
  (∀ w h, topSizes app !! sizeKey w h
          = size_record w h (requests_for_size w h log))
  ∧ (∀ k, topReferrers app !! k
          = referrer_record k (requests_for_referrer k log)).

(** Whether a string has a given character, and whether it is made of
    decimal digits and [-] only. *)
Fixpoint has_char (c : ascii) (s : string) : bool :=
  match s with
  | EmptyString => false
  | String c' r => Ascii.eqb c' c || has_char c r
  end.

Definition numeric_char (c : ascii) : bool :=
  let n := N_of_ascii c in
  ((48 <=? n) && (n <=? 57))%N || Ascii.eqb c "-".

Fixpoint numeric (s : string) : bool :=
  match s with
  | EmptyString => true
  | String c r => numeric_char c && numeric r
  end.

(** Whether a request counts for some referrer (its own). *)
Definition counts_some_referrer (req : Request) : bool :=
  match req_referer req with
  | Some k => counts_referrer k req
  | None => false
  end.

(** The sum of the counts of a list of records, and of a table. *)
Definition sum_counts {R : Type} (n : R → Z) (records : list R) : Z :=
  foldr (λ r acc, n r + acc) 0 records.

(** The sum of the counts of a table. *)
Definition total {R : Type} (n : R → Z) (o : gmap string R) : Z :=
  sum_counts n (JS.values o).

(** The stores the process can be in. *)
Inductive reachable : Store → Prop :=
| reachable_initial : reachable initial
| reachable_handle c app : reachable app → reachable (handle c app).2.


(** ** Facts about the array primitives *)

Section ArrayFacts.
Context {A : Type} `{EqDecision A}.
Implicit Types (l seen : list A) (x : A).

Lemma fresh_elem_of seen l x : x ∈ JS.fresh seen l ↔ x ∈ l ∧ x ∉ seen.
Proof.
  revert seen. induction l as [|y l IH]; intros seen; simpl.
  - set_solver.
  - case_bool_decide as Hy.
    + rewrite IH. set_solver.
    + rewrite elem_of_cons, IH.
      destruct (decide (x = y)) as [->|Hne]; set_solver.
Qed.

Lemma fresh_NoDup seen l : NoDup (JS.fresh seen l).
Proof.
  revert seen. induction l as [|y l IH]; intros seen; simpl.
  - constructor.
  - case_bool_decide; [apply IH|].
    constructor; [|apply IH].
    rewrite fresh_elem_of. set_solver.
Qed.

Lemma fresh_ext seen seen' l :
  (∀ x, x ∈ seen ↔ x ∈ seen') → JS.fresh seen l = JS.fresh seen' l.
Proof.
  revert seen seen'. induction l as [|y l IH]; intros seen seen' Hs; simpl.
  - done.
  - rewrite (bool_decide_ext _ _ (Hs y)).
    case_bool_decide; [by apply IH|].
    f_equal. apply IH. intros x. rewrite !elem_of_cons, Hs. done.
Qed.

Lemma fresh_id seen l :
  NoDup l → (∀ x, x ∈ l → x ∉ seen) → JS.fresh seen l = l.
Proof.
  intros Hnd. revert seen.
  induction Hnd as [|y l Hy Hnd IH]; intros seen Hs; simpl.
  - done.
  - rewrite bool_decide_eq_false_2 by (apply Hs; left).
    f_equal. apply IH. intros x Hx [->|Hin]%elem_of_cons; [done|].
    apply (Hs x); [by right|done].
Qed.

Lemma fresh_sublist seen l : JS.fresh seen l `sublist_of` l.
Proof.
  revert seen. induction l as [|y l IH]; intros seen; simpl.
  - constructor.
  - case_bool_decide; [apply sublist_cons|apply sublist_skip]; apply IH.
Qed.

(** [[...new Set(l)]] is the list of first occurrences. *)
Lemma foldl_set_add acc l :
  foldl JS.set_add acc l = acc ++ JS.fresh acc l.
Proof.
  revert acc. induction l as [|y l IH]; intros acc; simpl.
  - by rewrite app_nil_r.
  - rewrite IH. unfold JS.set_add. case_bool_decide; [done|].
    rewrite <- app_assoc. simpl. do 2 f_equal.
    apply fresh_ext. intros x. rewrite elem_of_app, elem_of_cons.
    set_solver.
Qed.

Lemma spread_Set_fresh l : JS.spread_Set l = JS.fresh [] l.
Proof. unfold JS.spread_Set. by rewrite foldl_set_add. Qed.

Lemma findIndex_from_miss (p : A → bool) i l :
  (∀ x, x ∈ l → p x = false) → JS.findIndex_from p i l = -1.
Proof.
  revert i. induction l as [|y l IH]; intros i Hp; simpl; [done|].
  rewrite (Hp y) by left. apply IH. intros x Hx. apply Hp. by right.
Qed.

Lemma findIndex_from_app (p : A → bool) i l k :
  (∀ x, x ∈ l → p x = false) →
  JS.findIndex_from p i (l ++ k) = JS.findIndex_from p (i + Z.of_nat (length l)) k.
Proof.
  revert i. induction l as [|y l IH]; intros i Hp; simpl.
  - f_equal. lia.
  - rewrite (Hp y) by left. rewrite IH by (intros x Hx; apply Hp; by right).
    f_equal. lia.
Qed.

Lemma findIndex_from_hit (p : A → bool) i l k :
  (∃ x, x ∈ l ∧ p x = true) →
  i ≤ JS.findIndex_from p i (l ++ k) < i + Z.of_nat (length l).
Proof.
  revert i. induction l as [|y l IH]; intros i [x [Hx Hpx]]; simpl.
  - by apply elem_of_nil in Hx.
  - destruct (p y) eqn:Hpy; [lia|].
    apply elem_of_cons in Hx as [->|Hx]; [congruence|].
    assert (Hx' : ∃ x, x ∈ l ∧ p x = true) by (by exists x).
    specialize (IH (i + 1) Hx'). lia.
Qed.

(** The filter of [applyRecentSizes], for a test [same] that decides
    equality: an element is kept when it is the first of its kind. *)
Lemma filter_first_index_from (same : A → A → bool) l k :
  (∀ a b, same a b = true ↔ a = b) →
  JS.filter_from
    (λ s i, i =? JS.findIndex (λ x, same x s) (l ++ k))
    (Z.of_nat (length l)) k
  = JS.fresh l k.
Proof.
  intros Hsame. revert l. induction k as [|y k IH]; intros l; simpl; [done|].
  replace (Z.of_nat (length l) + 1) with (Z.of_nat (length (l ++ [y])))
    by (rewrite length_app; simpl; lia).
  set (idx := JS.findIndex (λ x, same x y) (l ++ y :: k)).
  rewrite (cons_middle y l k), app_assoc, !IH. subst idx. clear IH.
  assert (Hfresh : JS.fresh (l ++ [y]) k = JS.fresh (y :: l) k).
  { apply fresh_ext. intros x. rewrite elem_of_app, !elem_of_cons. set_solver. }
  case_bool_decide as Hy.
  - assert (Hlt : 0 ≤ JS.findIndex (λ x, same x y) (l ++ y :: k)
                  < 0 + Z.of_nat (length l)).
    { apply findIndex_from_hit. exists y. split; [done|]. by apply Hsame. }
    destruct (Z.eqb_spec (Z.of_nat (length l))
                (JS.findIndex (λ x, same x y) (l ++ y :: k))); [lia|].
    rewrite Hfresh. apply fresh_ext. intros x. rewrite elem_of_cons.
    split; [by intros [->|?]|by right].
  - unfold JS.findIndex. rewrite findIndex_from_app.
    + simpl. rewrite (proj2 (Hsame y y) eq_refl).
      rewrite Z.add_0_l, Z.eqb_refl. by rewrite Hfresh.
    + intros x Hx. destruct (same x y) eqn:Hxy; [|done].
      apply Hsame in Hxy as ->. done.
Qed.

Lemma filter_first_index (same : A → A → bool) l :
  (∀ a b, same a b = true ↔ a = b) →
  JS.filter_indexed (λ s i, i =? JS.findIndex (λ x, same x s) l) l
  = JS.fresh [] l.
Proof. intros Hsame. apply (filter_first_index_from same [] l Hsame). Qed.


Lemma sort_insert_perm (key : A → Z) x l : JS.sort_insert key x l ≡ₚ x :: l.
Proof.
  induction l as [|y l IH]; simpl; [done|].
  case_match; [done|]. rewrite IH. apply Permutation_swap.
Qed.

Lemma sort_desc_perm (key : A → Z) l : JS.sort_desc key l ≡ₚ l.
Proof.
  induction l as [|y l IH]; simpl; [done|].
  by rewrite sort_insert_perm, IH.
Qed.

Lemma sort_insert_sorted (key : A → Z) x l :
  StronglySorted (JS.desc key) l → StronglySorted (JS.desc key) (JS.sort_insert key x l).
Proof.
  induction 1 as [|y l Hl IH Hy]; simpl.
  - repeat constructor.
  - destruct (Z.leb_spec (key y - key x) 0) as [Hle|Hgt].
    + constructor; [by constructor|].
      constructor; [unfold JS.desc; lia|].
      eapply Forall_impl; [exact Hy|]. unfold JS.desc. intros; simpl in *; lia.
    + constructor; [done|].
      rewrite sort_insert_perm. constructor; [unfold JS.desc; lia|done].
Qed.

Lemma sort_desc_sorted (key : A → Z) l :
  StronglySorted (JS.desc key) (JS.sort_desc key l).
Proof.
  induction l as [|y l IH]; simpl; [constructor|].
  by apply sort_insert_sorted.
Qed.

End ArrayFacts.

(** ** Facts about numbers and the validator *)

Lemma gt_spec (a : JS.Number) (b : Z) :
  JS.gt a b = true ↔ JS.greater_than a b.
Proof.
  destruct a as [| | |q]; simpl; try done.
  unfold Qlt. simpl. by rewrite Z.ltb_lt, Z.mul_1_r.
Qed.

Lemma valid_spec (a : JS.Number) :
  JS.gt a 0 && JS.isInteger a = true ↔ JS.positive_integer a.
Proof.
  destruct a as [| | |[n d]]; simpl; try (split; [done|tauto]).
  rewrite andb_true_iff, Z.ltb_lt, Z.eqb_eq. unfold Qeq. simpl. split.
  - intros [Hpos Hmod]. exists (n / Z.pos d).
    pose proof (Z.div_mod n (Z.pos d)) as Hdm. split; [nia|nia].
  - intros (z & Hz & Heq). split; [nia|].
    replace n with (z * Z.pos d) by lia. apply Z.mod_mul. lia.
Qed.

Lemma of_Z_positive_integer (z : Z) : JS.positive_integer (JS.of_Z z) ↔ 0 < z.
Proof.
  simpl. split.
  - intros (z' & Hz' & Heq). unfold Qeq in Heq. simpl in Heq. lia.
  - intros Hz. by exists z.
Qed.

Lemma to_Z_of_Z (z : Z) : JS.to_Z (JS.of_Z z) = z.
Proof. simpl. apply Z.div_1_r. Qed.

Lemma square_in_scope_Some (s : string) : square_in_scope (Some s) = true.
Proof.
  unfold square_in_scope. simpl. destruct (String.eqb_spec s "") as [->|]; done.
Qed.

Lemma validateInputs_too_big req :
  existsb (λ size, JS.gt size 2000) (dimensions req) = true →
  validateInputs req = inl (SendStatus 403).
Proof. intros Hbig. unfold validateInputs. by rewrite Hbig. Qed.

Lemma validateInputs_invalid req :
  existsb (λ size, JS.gt size 2000) (dimensions req) = false →
  forallb (λ size, JS.gt size 0 && JS.isInteger size) (dimensions req) = false →
  validateInputs req = inl (SendStatus 400).
Proof. intros Hbig Hval. unfold validateInputs. by rewrite Hbig, Hval. Qed.

Lemma some_too_big req :
  existsb (λ size, JS.gt size 2000) (dimensions req) = true
  ↔ ∃ size, size ∈ dimensions req ∧ JS.greater_than size 2000.
Proof.
  rewrite existsb_exists. split; intros (size & Hin & Hgt); exists size.
  - by rewrite list_elem_of_In, <- gt_spec.
  - by rewrite <- list_elem_of_In, gt_spec.
Qed.

Lemma all_valid req :
  forallb (λ size, JS.gt size 0 && JS.isInteger size) (dimensions req) = true
  ↔ ∀ size, size ∈ dimensions req → JS.positive_integer size.
Proof.
  rewrite forallb_forall. split; intros Hall size Hin.
  - apply valid_spec, Hall. by apply list_elem_of_In.
  - apply valid_spec, Hall. by apply list_elem_of_In.
Qed.

(** What an accepted request leaves in [res.locals]. *)
Lemma validateInputs_accepts req res :
  validateInputs req = inr res →
  (∀ size, size ∈ dimensions req →
     JS.positive_integer size ∧ ¬ JS.greater_than size 2000)
  ∧ width (params res) = JS.to_Z (ToNumber (req_width req))
  ∧ height (params res) = JS.to_Z (ToNumber (req_height req))
  ∧ text (queries res)
    = (if bool_decide (req_text req = Some "+") then Some " " else req_text req).
Proof.
  unfold validateInputs.
  destruct (existsb _ _) eqn:Hbig; [done|].
  destruct (forallb _ _) eqn:Hval; [|done].
  simpl. intros [= <-]. simpl. split; [|done].
  intros size Hin. split; [by apply (proj1 (all_valid req) Hval)|].
  intros Hgt. apply not_true_iff_false in Hbig. apply Hbig, some_too_big.
  by exists size.
Qed.

(** A rejected request leaves the store as it is. *)
Lemma get_img_rejected req app r :
  validateInputs req = inl r → get_img req app = (r, app).
Proof. intros Hv. unfold get_img. by rewrite Hv. Qed.

(** The in-scope dimensions are the width, the height, and the square
    value whenever the query has one. *)
Lemma dimensions_spec req size :
  size ∈ dimensions req
  ↔ size = ToNumber (req_width req) ∨ size = ToNumber (req_height req)
    ∨ ∃ s, req_square req = Some s ∧ size = ToNumber s.
Proof.
  unfold dimensions. destruct (req_square req) as [s|] eqn:Hsq.
  - rewrite square_in_scope_Some. simpl.
    rewrite !elem_of_cons, elem_of_nil. split.
    + intros [->|[->|[->|[]]]]; eauto.
    + intros [->|[->|(s' & [= <-] & ->)]]; eauto.
  - simpl. rewrite !elem_of_cons, elem_of_nil. split.
    + intros [->|[->|[]]]; eauto.
    + intros [->|[->|(s' & [=] & _)]]; eauto.
Qed.

(** ** The validator's rejections *)

Lemma get_img_too_large req app size :
  size ∈ dimensions req → JS.greater_than size 2000 →
  get_img req app = (SendStatus 403, app).
Proof.
  intros Hin Hgt. apply get_img_rejected, validateInputs_too_big, some_too_big.
  by exists size.
Qed.

Lemma get_img_invalid req app size :
  size ∈ dimensions req → ¬ JS.positive_integer size →
  (∀ d, d ∈ dimensions req → ¬ JS.greater_than d 2000) →
  get_img req app = (SendStatus 400, app).
Proof.
  intros Hin Hbad Hsmall. apply get_img_rejected, validateInputs_invalid.
  - apply not_true_iff_false. intros (d & Hd & Hgt)%some_too_big.
    by apply (Hsmall d).
  - apply not_true_iff_false. intros Hall. apply Hbad.
    by apply (proj1 (all_valid req) Hall).
Qed.

(** C1. An image request one of whose in-scope dimensions coerces to a
    number greater than 2000 is answered with status 403, and the store
    (all five collections) is what it was before the request. *)
Theorem too_large_is_forbidden req app size :
  size ∈ dimensions req → JS.greater_than size 2000 →
  (get_img req app).1 = SendStatus 403
  ∧ recentPaths (get_img req app).2 = recentPaths app
  ∧ recentSizes (get_img req app).2 = recentSizes app
  ∧ recentTexts (get_img req app).2 = recentTexts app
  ∧ topSizes (get_img req app).2 = topSizes app
  ∧ topReferrers (get_img req app).2 = topReferrers app.
Proof.
  intros Hin Hgt. by rewrite (get_img_too_large req app size Hin Hgt).
Qed.

(** C2, as the code has it. An image request one of whose in-scope
    dimensions is not a positive integer, and none of whose in-scope
    dimensions is greater than 2000, is answered with status 400, and the
    store (all five collections) is what it was before the request. (The
    size bound is tested first: with a dimension above 2000 the answer is
    403.) *)
Theorem invalid_dimension_is_bad_request req app size :
  size ∈ dimensions req → ¬ JS.positive_integer size →
  (∀ d, d ∈ dimensions req → ¬ JS.greater_than d 2000) →
  (get_img req app).1 = SendStatus 400
  ∧ recentPaths (get_img req app).2 = recentPaths app
  ∧ recentSizes (get_img req app).2 = recentSizes app
  ∧ recentTexts (get_img req app).2 = recentTexts app
  ∧ topSizes (get_img req app).2 = topSizes app
  ∧ topReferrers (get_img req app).2 = topReferrers app.
Proof.
  intros Hin Hbad Hsmall.
  by rewrite (get_img_invalid req app size Hin Hbad Hsmall).
Qed.

(** C9, as the code has it. When the query has [square] with an empty value
    (and the empty string coerces to 0, as it does), the square value is the
    number 0 and is one of the in-scope dimensions; the request is rejected
    and the store is what it was: with status 400 when neither the width nor
    the height is greater than 2000, and with status 403 when one is. *)
Theorem empty_square_is_rejected req app :
  ToNumber "" = JS.of_Z 0 → req_square req = Some "" →
  JS.plus ToNumber (req_square req) = JS.of_Z 0
  ∧ JS.of_Z 0 ∈ dimensions req
  ∧ (¬ JS.greater_than (ToNumber (req_width req)) 2000 →
     ¬ JS.greater_than (ToNumber (req_height req)) 2000 →
     get_img req app = (SendStatus 400, app))
  ∧ (JS.greater_than (ToNumber (req_width req)) 2000
     ∨ JS.greater_than (ToNumber (req_height req)) 2000 →
     get_img req app = (SendStatus 403, app)).
Proof.
  intros Hempty Hsq.
  assert (Hin : JS.of_Z 0 ∈ dimensions req).
  { apply dimensions_spec. right. right. exists "". by rewrite Hempty. }
  split; [by rewrite Hsq; simpl|]. split; [done|]. split.
  - intros Hw Hh.
    apply (get_img_invalid req app (JS.of_Z 0)); [done| |].
    + rewrite of_Z_positive_integer. lia.
    + intros d [->|[->|(s & Hs & ->)]]%dimensions_spec; [done|done|].
      rewrite Hsq in Hs. injection Hs as <-. rewrite Hempty.
      rewrite <- gt_spec. done.
  - intros [Hw|Hh].
    + apply (get_img_too_large req app (ToNumber (req_width req)));
        [|done]. apply dimensions_spec. by left.
    + apply (get_img_too_large req app (ToNumber (req_height req)));
        [|done]. apply dimensions_spec. right. by left.
Qed.

(** ** The stages *)

Lemma same_size_spec (a b : Size) : same_size a b = true ↔ a = b.
Proof.
  destruct a as [wa ha], b as [wb hb]. unfold same_size. simpl.
  rewrite andb_true_iff, !Z.eqb_eq. split; [by intros [-> ->]|].
  by intros [= -> ->].
Qed.

Lemma applyRecentSizes_fresh res app :
  recentSizes (applyRecentSizes res app)
  = take 10 (sizes_of res :: JS.fresh [sizes_of res] (recentSizes app)).
Proof.
  unfold applyRecentSizes. simpl. unfold JS.slice0. f_equal.
  rewrite (filter_first_index same_size _ same_size_spec).
  unfold JS.fresh at 1. fold (@JS.fresh Size _).
  by rewrite bool_decide_eq_false_2 by apply not_elem_of_nil.
Qed.

Lemma applyRecentSizes_NoDup res app :
  NoDup (recentSizes (applyRecentSizes res app)).
Proof.
  rewrite applyRecentSizes_fresh.
  eapply sublist_NoDup; [|apply sublist_take].
  apply (fresh_NoDup [] (sizes_of res :: recentSizes app)).
Qed.

Lemma applyRecentSizes_head res app :
  recentSizes (applyRecentSizes res app) !! 0%nat = Some (sizes_of res).
Proof. by rewrite applyRecentSizes_fresh. Qed.

Lemma applyRecentTexts_fresh res app :
  recentTexts (applyRecentTexts res app)
  = take 10
      (JS.fresh []
         (if JS.truthy (text (queries res))
          then default "" (text (queries res)) :: recentTexts app
          else recentTexts app)).
Proof.
  unfold applyRecentTexts. simpl. unfold JS.slice0.
  rewrite spread_Set_fresh. by destruct (text (queries res)).
Qed.

(** The later stages do not touch the recent lists, and the earlier ones
    do not touch the tables. *)
Lemma get_img_accepted req res app :
  validateInputs req = inr res →
  (get_img req app).1 = serveImage res
  ∧ recentPaths (get_img req app).2
    = recentPaths (applyRecentPaths req res app)
  ∧ recentSizes (get_img req app).2 = recentSizes (applyRecentSizes res app)
  ∧ recentTexts (get_img req app).2 = recentTexts (applyRecentTexts res app)
  ∧ topSizes (get_img req app).2 = topSizes (applyTopSizes res app)
  ∧ topReferrers (get_img req app).2 = topReferrers (applyTopReferrers req app).
Proof. intros Hv. unfold get_img. rewrite Hv. done. Qed.

(** C3. After an accepted image request, [recentSizes] has at most 10
    entries, no two of its entries have the same (w, h) pair, and its entry
    at index 0 is the [{ w, h }] of the request. *)
Theorem recentSizes_after_accepted req res app :
  validateInputs req = inr res →
  (length (recentSizes (get_img req app).2) ≤ 10)%nat
  ∧ (∀ i j a b,
       recentSizes (get_img req app).2 !! i = Some a →
       recentSizes (get_img req app).2 !! j = Some b →
       size_w a = size_w b → size_h a = size_h b → i = j)
  ∧ recentSizes (get_img req app).2 !! 0%nat
    = Some {| size_w := width (params res); size_h := height (params res) |}.
Proof.
  intros Hv. destruct (get_img_accepted req res app Hv) as (_ & _ & -> & _).
  split; [|split].
  - rewrite applyRecentSizes_fresh, length_take. lia.
  - intros i j [wa ha] [wb hb] Hi Hj Hw Hh. simpl in Hw, Hh. subst.
    eapply NoDup_lookup; [apply applyRecentSizes_NoDup|done..].
  - apply applyRecentSizes_head.
Qed.

(** ** The frequency tables *)

Section Tables.
Context {R : Type}.
Implicit Types (o : gmap string R) (k : string) (r : R).

(** After the guard the key reads as a value. *)
Lemma ensure_defined r k o : JS.get (JS.ensure r k o) k ≠ JS.Undefined.
Proof.
  unfold JS.ensure, JS.get.
  destruct (o !! k) as [r'|] eqn:Hk; [by rewrite Hk|].
  destruct (JS.inherited k) eqn:Hi.
  - by rewrite Hk.
  - by rewrite lookup_insert_eq.
Qed.

(** Guard and increment on a key that the prototype does not have: the
    record of the key, or a new one, gets its count raised. *)
Lemma bump_own (bump : R → R) r k o :
  JS.inherited k = false →
  JS.increment bump k (JS.ensure r k o) = <[k := bump (default r (o !! k))]> o.
Proof.
  intros Hi. unfold JS.increment, JS.ensure, JS.get.
  destruct (o !! k) as [r'|] eqn:Hk.
  - by rewrite Hk.
  - rewrite Hi, lookup_insert_eq. by rewrite insert_insert_eq.
Qed.

(** On a key the table has as an own property it is the same. *)
Lemma bump_present (bump : R → R) r r' k o :
  o !! k = Some r' →
  JS.increment bump k (JS.ensure r k o) = <[k := bump r']> o.
Proof.
  intros Hk. unfold JS.increment, JS.ensure, JS.get. by rewrite Hk, Hk.
Qed.

(** On a name of the prototype that the table does not have as its own, no
    record is made and the table stays as it is. *)
Lemma bump_inherited (bump : R → R) r k o :
  JS.inherited k = true → o !! k = None →
  JS.increment bump k (JS.ensure r k o) = o.
Proof.
  intros Hi Hk. unfold JS.increment, JS.ensure, JS.get. by rewrite Hk, Hi, Hk.
Qed.

(** In every case the table is left alone or gets one key rewritten. *)
Lemma bump_cases (bump : R → R) r k o :
  JS.increment bump k (JS.ensure r k o) = o
  ∨ JS.increment bump k (JS.ensure r k o) = <[k := bump (default r (o !! k))]> o.
Proof.
  destruct (JS.inherited k) eqn:Hi; [|right; by apply bump_own].
  destruct (o !! k) as [r'|] eqn:Hk.
  - right. by apply bump_present.
  - left. by apply bump_inherited.
Qed.

End Tables.

(** No size key is a name of the prototype: it has an [x] in it, and those
    names have none. *)
Lemma has_x_app (a b : string) : has_x (a +:+ "x" +:+ b) = true.
Proof. induction a as [|c a IH]; simpl; [done|]. by rewrite IH, orb_true_r. Qed.

Lemma sizeKey_not_inherited (w h : Z) : JS.inherited (sizeKey w h) = false.
Proof.
  unfold JS.inherited. apply bool_decide_eq_false_2. intros Hin.
  assert (Hall : Forall (λ name, has_x name = false) JS.prototype_names)
    by (repeat constructor).
  rewrite Forall_forall in Hall. specialize (Hall _ Hin).
  unfold sizeKey in Hall. by rewrite has_x_app in Hall.
Qed.

Lemma applyTopSizes_insert res app :
  topSizes (applyTopSizes res app)
  = <[sizeKey (width (params res)) (height (params res))
      := bump_size (default (new_size res)
                      (topSizes app
                         !! sizeKey (width (params res)) (height (params res))))]>
      (topSizes app).
Proof.
  unfold applyTopSizes. simpl. apply bump_own, sizeKey_not_inherited.
Qed.

Lemma applyTopSizes_count res app :
  count_of ts_n (topSizes (applyTopSizes res app))
    (sizeKey (width (params res)) (height (params res)))
  = count_of ts_n (topSizes app)
      (sizeKey (width (params res)) (height (params res))) + 1.
Proof.
  rewrite applyTopSizes_insert. unfold count_of. rewrite lookup_insert_eq.
  by destruct (topSizes app !! _).
Qed.



(** C10. Each stage writes its own collection and leaves the other four as
    they were: [applyRecentPaths] writes [recentPaths] only,
    [applyRecentSizes] [recentSizes] only, [applyRecentTexts] [recentTexts]
    only, [applyTopSizes] [topSizes] only and [applyTopReferrers]
    [topReferrers] only, for every request, every validated [res.locals]
    and every store. *)
Theorem stages_write_their_own_collection req res app :
  (recentSizes (applyRecentPaths req res app) = recentSizes app
   ∧ recentTexts (applyRecentPaths req res app) = recentTexts app
   ∧ topSizes (applyRecentPaths req res app) = topSizes app
   ∧ topReferrers (applyRecentPaths req res app) = topReferrers app)
  ∧ (recentPaths (applyRecentSizes res app) = recentPaths app
     ∧ recentTexts (applyRecentSizes res app) = recentTexts app
     ∧ topSizes (applyRecentSizes res app) = topSizes app
     ∧ topReferrers (applyRecentSizes res app) = topReferrers app)
  ∧ (recentPaths (applyRecentTexts res app) = recentPaths app
     ∧ recentSizes (applyRecentTexts res app) = recentSizes app
     ∧ topSizes (applyRecentTexts res app) = topSizes app
     ∧ topReferrers (applyRecentTexts res app) = topReferrers app)
  ∧ (recentPaths (applyTopSizes res app) = recentPaths app
     ∧ recentSizes (applyTopSizes res app) = recentSizes app
     ∧ recentTexts (applyTopSizes res app) = recentTexts app
     ∧ topReferrers (applyTopSizes res app) = topReferrers app)
  ∧ (recentPaths (applyTopReferrers req app) = recentPaths app
     ∧ recentSizes (applyTopReferrers req app) = recentSizes app
     ∧ recentTexts (applyTopReferrers req app) = recentTexts app
     ∧ topSizes (applyTopReferrers req app) = topSizes app).
Proof.
  unfold applyRecentPaths, applyRecentSizes, applyRecentTexts, applyTopSizes,
    applyTopReferrers.
  repeat split; reflexivity.
Qed.

(** ** Texts *)

Lemma truthy_Some (t : string) : JS.truthy (Some t) = true ↔ t ≠ "".
Proof.
  simpl. destruct (String.eqb_spec t "") as [->|Hne]; simpl; split; done.
Qed.

(** C6. The validator turns the text ["+"] into a single space and passes
    every other text, and an absent one, as it is. The recent-texts stage
    puts a present, non-empty text at the front of [recentTexts]; with an
    absent or empty text it adds nothing: the list keeps entries it had, in
    their order, and a list that was duplicate-free and no longer than 10
    stays as it was. On an accepted request the list the pipeline leaves is
    the one this stage makes. *)
Theorem text_is_normalised_and_recorded :
  (∀ req res,
     validateInputs req = inr res →
     (req_text req = Some "+" → text (queries res) = Some " ")
     ∧ (req_text req ≠ Some "+" → text (queries res) = req_text req))
  ∧ (∀ res app t,
       text (queries res) = Some t → t ≠ "" →
       recentTexts (applyRecentTexts res app) !! 0%nat = Some t)
  ∧ (∀ res app,
       text (queries res) = None ∨ text (queries res) = Some "" →
       recentTexts (applyRecentTexts res app) `sublist_of` recentTexts app
       ∧ (NoDup (recentTexts app) → (length (recentTexts app) ≤ 10)%nat →
          recentTexts (applyRecentTexts res app) = recentTexts app))
  ∧ (∀ req res app,
       validateInputs req = inr res →
       recentTexts (get_img req app).2
       = recentTexts (applyRecentTexts res app)).
Proof.
  split; [|split; [|split]].
  - intros req res Hv.
    destruct (validateInputs_accepts req res Hv) as (_ & _ & _ & ->).
    split; intros Ht.
    + by rewrite bool_decide_eq_true_2.
    + by rewrite bool_decide_eq_false_2.
  - intros res app t Ht Hne. rewrite applyRecentTexts_fresh, Ht.
    rewrite (proj2 (truthy_Some t) Hne). done.
  - intros res app Ht. rewrite applyRecentTexts_fresh.
    assert (Hfalse : JS.truthy (text (queries res)) = false)
      by (by destruct Ht as [-> | ->]).
    rewrite Hfalse. split.
    + etrans; [apply sublist_take|apply fresh_sublist].
    + intros Hnd Hlen. rewrite fresh_id; [by apply take_ge|done|].
      intros x _. apply not_elem_of_nil.
  - intros req res app Hv.
    by destruct (get_img_accepted req res app Hv) as (_ & _ & _ & -> & _).
Qed.

(** ** Counters *)

Lemma applyTopReferrers_skips req app :
  req_referer req = None ∨ req_referer req = Some "" →
  topReferrers (applyTopReferrers req app) = topReferrers app.
Proof. unfold applyTopReferrers. by intros [-> | ->]. Qed.

Lemma applyTopReferrers_insert req app k :
  req_referer req = Some k → k ≠ "" → JS.inherited k = false →
  topReferrers (applyTopReferrers req app)
  = <[k := bump_referrer (default (new_referrer k) (topReferrers app !! k))]>
      (topReferrers app).
Proof.
  intros Hk Hne Hi. unfold applyTopReferrers. rewrite Hk.
  rewrite (proj2 (truthy_Some k) Hne). simpl. by apply bump_own.
Qed.

Lemma applyTopReferrers_cases req app :
  topReferrers (applyTopReferrers req app) = topReferrers app
  ∨ ∃ k, topReferrers (applyTopReferrers req app)
         = <[k := bump_referrer
                    (default (new_referrer k) (topReferrers app !! k))]>
             (topReferrers app).
Proof.
  unfold applyTopReferrers. destruct (req_referer req) as [k|]; [|by left].
  destruct (JS.truthy (Some k)); [|by left]. simpl.
  destruct (bump_cases bump_referrer (new_referrer k) k (topReferrers app))
    as [Heq|Heq]; unfold new_referrer in Heq |- *; rewrite Heq;
    [by left|right; by exists k].
Qed.

(** What a call does to the two tables: it leaves a table alone, or raises
    one count by one (making the record when there is none), or, for the
    reset, empties both. *)
Lemma handle_tables c app :
  c = DELETE_stats
  ∨ ((topSizes (handle c app).2 = topSizes app
      ∨ ∃ k r0, topSizes (handle c app).2
                = <[k := bump_size (default r0 (topSizes app !! k))]>
                    (topSizes app)
                ∧ ts_n r0 = 0)
     ∧ (topReferrers (handle c app).2 = topReferrers app
        ∨ ∃ k r0, topReferrers (handle c app).2
                  = <[k := bump_referrer (default r0 (topReferrers app !! k))]>
                      (topReferrers app)
                  ∧ tr_n r0 = 0)).
Proof.
  destruct c as [req| | | | | |]; [|right; split; by left..|by left].
  right. simpl. destruct (validateInputs req) as [r|res] eqn:Hv.
  - rewrite (get_img_rejected req app r Hv). split; by left.
  - destruct (get_img_accepted req res app Hv) as (_ & _ & _ & _ & -> & ->).
    split.
    + right. rewrite applyTopSizes_insert. by eexists _, (new_size res).
    + destruct (applyTopReferrers_cases req app) as [->|[k ->]]; [by left|].
      right. by eexists k, (new_referrer k).
Qed.

Lemma bump_positive {R : Type} (n : R → Z) (bump : R → R) (o : gmap string R)
    (k : string) (r0 : R) :
  (∀ r, n (bump r) = n r + 1) → n r0 = 0 →
  (∀ k' r, o !! k' = Some r → 0 < n r) →
  ∀ k' r, <[k := bump (default r0 (o !! k))]> o !! k' = Some r → 0 < n r.
Proof.
  intros Hbump H0 Hpos k' r. rewrite lookup_insert. case_decide as Hk.
  - intros [= <-]. rewrite Hbump. destruct (o !! k) as [r'|] eqn:Hr; simpl.
    + specialize (Hpos k r' Hr). lia.
    + lia.
  - apply Hpos.
Qed.

Lemma bump_le {R : Type} (n : R → Z) (bump : R → R) (o : gmap string R)
    (k : string) (r0 : R) :
  (∀ r, n (bump r) = n r + 1) →
  ∀ k' r, o !! k' = Some r →
    ∃ r', <[k := bump (default r0 (o !! k))]> o !! k' = Some r' ∧ n r ≤ n r'.
Proof.
  intros Hbump k' r Hr. rewrite lookup_insert. case_decide as Hk.
  - subst k'. rewrite Hr. simpl. eexists. split; [done|]. rewrite Hbump. lia.
  - exists r. split; [done|lia].
Qed.

Lemma handle_positive c app :
  positive_counts app → positive_counts (handle c app).2.
Proof.
  intros [Hs Hr].
  destruct (handle_tables c app) as [->|[Hsizes Hrefs]]; [by split|].
  split.
  - destruct Hsizes as [->|(k & r0 & -> & H0)]; [done|].
    by apply (bump_positive ts_n).
  - destruct Hrefs as [->|(k & r0 & -> & H0)]; [done|].
    by apply (bump_positive tr_n).
Qed.

Lemma reachable_positive app : reachable app → positive_counts app.
Proof.
  induction 1 as [|c app Hreach IH]; [by split|]. by apply handle_positive.
Qed.

Lemma counts_le_refl app : counts_le app app.
Proof. split; intros k r Hk; exists r; split; (done || lia). Qed.

Lemma counts_le_trans a b c : counts_le a b → counts_le b c → counts_le a c.
Proof.
  intros [Hs1 Hr1] [Hs2 Hr2]. split; intros k r Hk.
  - destruct (Hs1 k r Hk) as (r' & Hk' & Hle).
    destruct (Hs2 k r' Hk') as (r'' & Hk'' & Hle').
    exists r''. split; [done|lia].
  - destruct (Hr1 k r Hk) as (r' & Hk' & Hle).
    destruct (Hr2 k r' Hk') as (r'' & Hk'' & Hle').
    exists r''. split; [done|lia].
Qed.

Lemma handle_counts_le c app :
  c ≠ DELETE_stats → counts_le app (handle c app).2.
Proof.
  intros Hc. destruct (handle_tables c app) as [->|[Hsizes Hrefs]]; [done|].
  split.
  - destruct Hsizes as [->|(k & r0 & -> & H0)].
    + intros k r Hk. exists r. split; [done|lia].
    + by apply (bump_le ts_n).
  - destruct Hrefs as [->|(k & r0 & -> & H0)].
    + intros k r Hk. exists r. split; [done|lia].
    + by apply (bump_le tr_n).
Qed.

Lemma run_counts_le cs app : DELETE_stats ∉ cs → counts_le app (run cs app).
Proof.
  revert app. induction cs as [|c cs IH]; intros app Hcs; simpl.
  - apply counts_le_refl.
  - apply not_elem_of_cons in Hcs as [Hc Hcs].
    eapply counts_le_trans; [by apply (handle_counts_le c)|by apply IH].
Qed.

(** C5, as the code has it. Every record of [topSizes] and [topReferrers]
    in a store the process can reach has a strictly positive count. An
    accepted request raises the count of the size key ["{width}x{height}"]
    by 1 and leaves every other size key as it was. With a referrer header
    that is present, not empty and not a name that [Object.prototype] gives
    to every object, it raises the count of that referrer by 1 and leaves
    every other key as it was; with an absent or empty header it leaves
    [topReferrers] as it was and the chain goes on to [serveImage]. Through
    calls other than the reset, a record stays under its key and its count
    does not get smaller. *)
Theorem counters_are_positive_and_monotone :
  (∀ app, reachable app → positive_counts app)
  ∧ (∀ req res app,
       validateInputs req = inr res →
       count_of ts_n (topSizes (get_img req app).2)
         (sizeKey (width (params res)) (height (params res)))
       = count_of ts_n (topSizes app)
           (sizeKey (width (params res)) (height (params res))) + 1
       ∧ ∀ k, k ≠ sizeKey (width (params res)) (height (params res)) →
              topSizes (get_img req app).2 !! k = topSizes app !! k)
  ∧ (∀ req res app ref,
       validateInputs req = inr res →
       req_referer req = Some ref → ref ≠ "" → JS.inherited ref = false →
       count_of tr_n (topReferrers (get_img req app).2) ref
       = count_of tr_n (topReferrers app) ref + 1
       ∧ ∀ k, k ≠ ref →
              topReferrers (get_img req app).2 !! k = topReferrers app !! k)
  ∧ (∀ req res app,
       validateInputs req = inr res →
       req_referer req = None ∨ req_referer req = Some "" →
       topReferrers (get_img req app).2 = topReferrers app
       ∧ (get_img req app).1 = serveImage res)
  ∧ (∀ cs app, DELETE_stats ∉ cs → counts_le app (run cs app)).
Proof.
  split; [exact reachable_positive|]. split; [|split; [|split]].
  - intros req res app Hv.
    destruct (get_img_accepted req res app Hv) as (_ & _ & _ & _ & -> & _).
    split; [apply applyTopSizes_count|].
    intros k Hk. rewrite applyTopSizes_insert. by apply lookup_insert_ne.
  - intros req res app ref Hv Href Hne Hi.
    destruct (get_img_accepted req res app Hv) as (_ & _ & _ & _ & _ & ->).
    rewrite (applyTopReferrers_insert req app ref Href Hne Hi). split.
    + unfold count_of. rewrite lookup_insert_eq.
      by destruct (topReferrers app !! ref).
    + intros k Hk. by apply lookup_insert_ne.
  - intros req res app Hv Href.
    destruct (get_img_accepted req res app Hv) as (-> & _ & _ & _ & _ & ->).
    split; [by apply applyTopReferrers_skips|done].
  - exact run_counts_le.
Qed.

(** ** Reset and reads *)

Lemma values_empty {R : Type} : JS.values (∅ : gmap string R) = [].
Proof. unfold JS.values. by rewrite map_to_list_empty. Qed.

Lemma elem_of_values {R : Type} (o : gmap string R) (r : R) :
  r ∈ JS.values o ↔ ∃ k, o !! k = Some r.
Proof.
  unfold JS.values. rewrite list_elem_of_fmap. split.
  - intros ([k r'] & -> & Hin). exists k. by apply elem_of_map_to_list.
  - intros [k Hk]. exists (k, r). split; [done|]. by apply elem_of_map_to_list.
Qed.

Lemma read_of_initial c :
  is_read c = true →
  ∃ p, (handle c initial).1 = Json p ∧ payload_length p = 0%nat.
Proof.
  destruct c; try done; intros _; simpl; eexists; (split; [done|]);
    simpl; unfold topTen; by rewrite ?values_empty.
Qed.

Lemma handle_not_accepted c :
  accepted c = false → (handle c initial).2 = initial.
Proof.
  destruct c as [req| | | | | |]; try done. simpl.
  destruct (validateInputs req) as [r|res] eqn:Hv; [|done].
  intros _. by rewrite (get_img_rejected req initial r Hv).
Qed.

Lemma run_not_accepted cs :
  (∀ c, c ∈ cs → accepted c = false) → run cs initial = initial.
Proof.
  induction cs as [|c cs IH]; intros Hcs; simpl; [done|].
  rewrite handle_not_accepted by (apply Hcs; left).
  apply IH. intros c' Hc'. apply Hcs. by right.
Qed.

(** C7. The reset answers with status 200 whatever the store is, and leaves
    all five collections at their empty initial values; after it, through
    any calls none of which is an accepted image request, each of the five
    reads answers with an empty array. *)
Theorem reset_empties_the_store app :
  (resetStats app).1 = SendStatus 200
  ∧ recentPaths (resetStats app).2 = []
  ∧ recentSizes (resetStats app).2 = []
  ∧ recentTexts (resetStats app).2 = []
  ∧ topSizes (resetStats app).2 = ∅
  ∧ topReferrers (resetStats app).2 = ∅
  ∧ ∀ cs c,
      (∀ c', c' ∈ cs → accepted c' = false) → is_read c = true →
      ∃ p, (handle c (run cs (handle DELETE_stats app).2)).1 = Json p
           ∧ payload_length p = 0%nat.
Proof.
  repeat (split; [done|]). intros cs c Hcs Hc.
  change (handle DELETE_stats app).2 with initial.
  rewrite run_not_accepted by done. by apply read_of_initial.
Qed.

(** ** The top endpoints *)

Lemma topTen_ranked {R : Type} `{EqDecision R} (n : R → Z) (records : list R) :
  ranked n (topTen n records) records.
Proof.
  unfold ranked, topTen, JS.slice0.
  pose proof (sort_desc_sorted n records) as Hsorted.
  rewrite <- (take_drop 10 (JS.sort_desc n records)) in Hsorted.
  split.
  { by rewrite length_take, (Permutation_length (sort_desc_perm n records)). }
  split.
  - by apply StronglySorted_app_1_l in Hsorted.
  - exists (drop 10 (JS.sort_desc n records)). split.
    + by rewrite take_drop, sort_desc_perm.
    + intros a b Ha Hb.
      apply (StronglySorted_app_1_elem_of _ _ _ a b Hsorted Ha Hb).
Qed.

(** The ranking does not depend on the order in which the table is
    enumerated. *)
Lemma topTen_ranked_perm {R : Type} `{EqDecision R} (n : R → Z)
    (records records' : list R) :
  records' ≡ₚ records → ranked n (topTen n records') records.
Proof.
  intros Hperm.
  destruct (topTen_ranked n records') as (Hlen & Hs & rest & Hp & Hle).
  split; [by rewrite Hlen, (Permutation_length Hperm)|].
  split; [done|]. exists rest. split; [|done].
  by rewrite Hp.
Qed.

(** C8. For every store, the top-sizes and the top-referrers endpoints
    answer with the records of their table that have the highest counts:
    at most 10 records, and as many as the table has when it has fewer; each
    is a record of the table; they are in descending order of count; the
    records sent and the records left out make up the table, and no record
    left out has a larger count than a record sent. The store, both tables
    included, is what it was before the read. The same holds in whatever
    order the records of the table are enumerated. *)
Theorem top_endpoints_rank_and_only_read app :
  (∃ out, serveTopSizes app = (Json (TopSizes out), app)
          ∧ (length out ≤ 10)%nat
          ∧ length out = (10 `min` size (topSizes app))%nat
          ∧ (∀ r, r ∈ out → ∃ k, topSizes app !! k = Some r)
          ∧ ranked ts_n out (JS.values (topSizes app)))
  ∧ (∃ out, serveTopReferrers app = (Json (TopReferrers out), app)
            ∧ (length out ≤ 10)%nat
            ∧ length out = (10 `min` size (topReferrers app))%nat
            ∧ (∀ r, r ∈ out → ∃ k, topReferrers app !! k = Some r)
            ∧ ranked tr_n out (JS.values (topReferrers app)))
  ∧ (∀ records, records ≡ₚ JS.values (topSizes app) →
                ranked ts_n (topTen ts_n records) (JS.values (topSizes app)))
  ∧ (∀ records, records ≡ₚ JS.values (topReferrers app) →
                ranked tr_n (topTen tr_n records)
                  (JS.values (topReferrers app))).
Proof.
  split; [|split; [|split]].
  - exists (topTen ts_n (JS.values (topSizes app))). split; [done|].
    destruct (topTen_ranked ts_n (JS.values (topSizes app)))
      as (Hlen & Hsorted & rest & Hperm & Hle).
    assert (Hsize : length (JS.values (topSizes app)) = size (topSizes app)).
    { unfold JS.values. by rewrite length_fmap, length_map_to_list. }
    split; [rewrite Hlen; lia|]. split; [by rewrite Hlen, Hsize|].
    split; [|apply topTen_ranked].
    intros r Hr. apply elem_of_values. rewrite <- Hperm.
    apply elem_of_app. by left.
  - exists (topTen tr_n (JS.values (topReferrers app))). split; [done|].
    destruct (topTen_ranked tr_n (JS.values (topReferrers app)))
      as (Hlen & Hsorted & rest & Hperm & Hle).
    assert (Hsize : length (JS.values (topReferrers app))
                    = size (topReferrers app)).
    { unfold JS.values. by rewrite length_fmap, length_map_to_list. }
    split; [rewrite Hlen; lia|]. split; [by rewrite Hlen, Hsize|].
    split; [|apply topTen_ranked].
    intros r Hr. apply elem_of_values. rewrite <- Hperm.
    apply elem_of_app. by left.
  - intros records. apply topTen_ranked_perm.
  - intros records. apply topTen_ranked_perm.
Qed.

(** ** More on the bounded lists *)

Section BoundedLists.
Context {A : Type} `{EqDecision A}.
Implicit Types (l seen : list A) (x : A).

Lemma filter_ne_id x l : x ∉ l → filter (λ y, y ≠ x) l = l.
Proof.
  induction l as [|y l IH]; intros Hx; [done|].
  apply not_elem_of_cons in Hx as [Hne Hx].
  rewrite filter_cons_True by done. f_equal. by apply IH.
Qed.

(** Seeing one more value beforehand is filtering it out afterwards. *)
Lemma fresh_seen_filter x seen l :
  JS.fresh (x :: seen) l = filter (λ y, y ≠ x) (JS.fresh seen l).
Proof.
  revert seen. induction l as [|y l IH]; intros seen; simpl; [done|].
  destruct (decide (y ∈ seen)) as [Hin|Hnin].
  - rewrite !bool_decide_eq_true_2 by (done || by right). apply IH.
  - rewrite (bool_decide_eq_false_2 (y ∈ seen)) by done.
    destruct (decide (y = x)) as [->|Hne].
    + rewrite bool_decide_eq_true_2 by left.
      rewrite filter_cons_False by (by intros Hxx; apply Hxx).
      symmetry. apply filter_ne_id. rewrite fresh_elem_of.
      intros [_ Hx]. apply Hx. left.
    + rewrite bool_decide_eq_false_2
        by (by intros [?|?]%elem_of_cons).
      rewrite filter_cons_True by done. f_equal.
      rewrite <- IH. apply fresh_ext. intros z. rewrite !elem_of_cons. tauto.
Qed.

(** Pushing onto a duplicate-free list moves the value to the front. *)
Lemma fresh_push x l :
  NoDup l → JS.fresh [] (x :: l) = x :: filter (λ y, y ≠ x) l.
Proof.
  intros Hnd. simpl. f_equal. rewrite fresh_seen_filter.
  rewrite fresh_id; [done|done|]. intros y _. apply not_elem_of_nil.
Qed.

Lemma take_filter_take x (n : nat) l :
  NoDup l →
  take n (filter (λ y, y ≠ x) (take (S n) l)) = take n (filter (λ y, y ≠ x) l).
Proof.
  intros Hnd. revert n. induction Hnd as [|y l Hy Hnd IH]; intros n; [done|].
  destruct n as [|n]; [done|].
  change (take (S (S n)) (y :: l)) with (y :: take (S n) l).
  destruct (decide (y = x)) as [->|Hne].
  - rewrite !filter_cons_False by (by intros Hxx; apply Hxx).
    rewrite !filter_ne_id; [by rewrite take_take, Nat.min_id|done|].
    intros (i & Hi & _)%elem_of_take. apply Hy.
    by eapply list_elem_of_lookup_2.
  - rewrite !filter_cons_True by done. simpl. f_equal. apply IH.
Qed.

(** What the list keeps after a push only depends on what it would keep of
    the whole history. *)
Lemma push_take x (n : nat) l :
  take n (JS.fresh [] (x :: take n (JS.fresh [] l)))
  = take n (JS.fresh [] (x :: l)).
Proof.
  destruct n as [|n]; [done|].
  rewrite fresh_push
    by (eapply sublist_NoDup; [apply fresh_NoDup|apply sublist_take]).
  change (JS.fresh [] (x :: l))
    with (if bool_decide (x ∈ []) then JS.fresh [] l else x :: JS.fresh [x] l).
  rewrite bool_decide_eq_false_2 by apply not_elem_of_nil.
  rewrite fresh_seen_filter. simpl. f_equal.
  apply take_filter_take, fresh_NoDup.
Qed.

End BoundedLists.

(** ** The validator, in full *)

Lemma positive_integer_denotes (a : JS.Number) :
  JS.positive_integer a → denotes a (JS.to_Z a) ∧ 0 < JS.to_Z a.
Proof.
  destruct a as [| | |[n d]]; simpl; try done.
  intros (z & Hz & Heq). unfold Qeq in *. simpl in *.
  assert (Hdiv : n / Z.pos d = z).
  { rewrite Z.mul_1_r in Heq. subst n. apply Z.div_mul. lia. }
  rewrite Hdiv. split; [done|lia].
Qed.

Lemma not_greater_to_Z (a : JS.Number) (b : Z) :
  JS.positive_integer a → ¬ JS.greater_than a b → JS.to_Z a ≤ b.
Proof.
  destruct a as [| | |[n d]]; simpl; try done.
  intros (z & Hz & Heq) Hgt. unfold Qeq, Qlt in *. simpl in *.
  assert (Hdiv : n / Z.pos d = z).
  { rewrite Z.mul_1_r in Heq. subst n. apply Z.div_mul. lia. }
  rewrite Hdiv. nia.
Qed.

Lemma validated_range (a : JS.Number) :
  JS.positive_integer a → ¬ JS.greater_than a 2000 → 1 ≤ JS.to_Z a ≤ 2000.
Proof.
  intros Hpos Hgt. split.
  - destruct (positive_integer_denotes a Hpos) as [_ H0]. lia.
  - by apply not_greater_to_Z.
Qed.

Lemma validateInputs_passes req :
  (∀ d, d ∈ dimensions req →
        JS.positive_integer d ∧ ¬ JS.greater_than d 2000) →
  ∃ res, validateInputs req = inr res.
Proof.
  intros Hall. unfold validateInputs.
  destruct (existsb _ _) eqn:Hbig.
  - apply some_too_big in Hbig as (d & Hd & Hgt). by destruct (Hall d Hd).
  - assert (Hval : forallb (λ size, JS.gt size 0 && JS.isInteger size)
                     (dimensions req) = true).
    { apply all_valid. intros d Hd. by destruct (Hall d Hd). }
    rewrite Hval. simpl. by eexists.
Qed.

Lemma validateInputs_square req res :
  validateInputs req = inr res →
  square (queries res) = (λ s, JS.to_Z (ToNumber s)) <$> req_square req.
Proof.
  unfold validateInputs.
  destruct (existsb _ _); [done|]. destruct (forallb _ _); [|done].
  simpl. intros [= <-]. simpl. destruct (req_square req) as [s|]; [|done].
  by rewrite square_in_scope_Some.
Qed.

Lemma validateInputs_ranges req res :
  validateInputs req = inr res →
  1 ≤ width (params res) ≤ 2000
  ∧ 1 ≤ height (params res) ≤ 2000
  ∧ ∀ z, square (queries res) = Some z → 1 ≤ z ≤ 2000.
Proof.
  intros Hv. pose proof (validateInputs_square req res Hv) as Hsq.
  destruct (validateInputs_accepts req res Hv) as (Hall & -> & -> & _).
  assert (Hdim : ∀ d, d ∈ dimensions req → 1 ≤ JS.to_Z d ≤ 2000).
  { intros d Hd. destruct (Hall d Hd). by apply validated_range. }
  split; [apply Hdim, dimensions_spec; by left|].
  split; [apply Hdim, dimensions_spec; right; by left|].
  intros z Hz. rewrite Hsq in Hz.
  destruct (req_square req) as [s|] eqn:Hs; [|done].
  injection Hz as <-. apply Hdim, dimensions_spec. right. right. by exists s.
Qed.

(** X1. The validator lets a request through exactly when every in-scope
    dimension is a positive integer that is not greater than 2000; any
    other request is answered with 403 or with 400. *)
Theorem validator_accepts_exactly req :
  ((∃ res, validateInputs req = inr res)
   ↔ ∀ d, d ∈ dimensions req →
          JS.positive_integer d ∧ ¬ JS.greater_than d 2000)
  ∧ ∀ r, validateInputs req = inl r → r = SendStatus 403 ∨ r = SendStatus 400.
Proof.
  split; [split|].
  - intros [res Hv]. by destruct (validateInputs_accepts req res Hv) as [Hall _].
  - apply validateInputs_passes.
  - unfold validateInputs. intros r.
    destruct (existsb _ _); [intros [= <-]; by left|].
    destruct (forallb _ _); [done|]. intros [= <-]. by right.
Qed.

(** X2. What an accepted request hands to the stages and to the imager:
    the width and the height are the integers the path parameters denote,
    both between 1 and 2000; [square] is there exactly when the query has
    it, and is then the integer it denotes, between 1 and 2000 as well. *)
Theorem validated_locals_are_in_range req res :
  validateInputs req = inr res →
  (denotes (ToNumber (req_width req)) (width (params res))
   ∧ 1 ≤ width (params res) ≤ 2000)
  ∧ (denotes (ToNumber (req_height req)) (height (params res))
     ∧ 1 ≤ height (params res) ≤ 2000)
  ∧ match req_square req with
    | None => square (queries res) = None
    | Some s =>
        ∃ z, square (queries res) = Some z
             ∧ denotes (ToNumber s) z ∧ 1 ≤ z ≤ 2000
    end.
Proof.
  intros Hv. pose proof (validateInputs_square req res Hv) as Hsq.
  destruct (validateInputs_ranges req res Hv) as (Hw & Hh & Hz).
  destruct (validateInputs_accepts req res Hv) as (Hall & Hwe & Hhe & _).
  split; [|split].
  - split; [|done]. rewrite Hwe.
    apply positive_integer_denotes, Hall, dimensions_spec. by left.
  - split; [|done]. rewrite Hhe.
    apply positive_integer_denotes, Hall, dimensions_spec. right. by left.
  - destruct (req_square req) as [s|] eqn:Hs; [|done].
    exists (JS.to_Z (ToNumber s)). split; [done|]. split.
    + apply positive_integer_denotes, Hall, dimensions_spec.
      right. right. by exists s.
    + by apply Hz.
Qed.

(** ** The recent lists over time *)

Lemma applyRecentPaths_fresh req res app :
  recentPaths (applyRecentPaths req res app)
  = take 10 (JS.fresh [] (url_of req res :: recentPaths app)).
Proof.
  unfold applyRecentPaths, url_of. simpl. unfold JS.slice0.
  by rewrite spread_Set_fresh.
Qed.

Lemma applyRecentSizes_push res app :
  recentSizes (applyRecentSizes res app)
  = take 10 (JS.fresh [] (sizes_of res :: recentSizes app)).
Proof. by rewrite applyRecentSizes_fresh. Qed.

Lemma applyRecentTexts_push res app :
  recentTexts (applyRecentTexts res app)
  = take 10 (JS.fresh [] (text_of res ++ recentTexts app)).
Proof.
  rewrite applyRecentTexts_fresh. unfold text_of.
  destruct (text (queries res)) as [t|]; [|done].
  by destruct (JS.truthy (Some t)).
Qed.

Lemma text_of_cases res :
  (text_of res = [] ∧ (text (queries res) = None ∨ text (queries res) = Some ""))
  ∨ ∃ t, text_of res = [t] ∧ text (queries res) = Some t ∧ t ≠ "".
Proof.
  unfold text_of. destruct (text (queries res)) as [t|]; [|left; by auto].
  destruct (JS.truthy (Some t)) eqn:Ht.
  - right. exists t. by rewrite <- truthy_Some.
  - left. split; [done|]. right. f_equal.
    destruct (decide (t = "")) as [->|Hne]; [done|].
    apply truthy_Some in Hne. congruence.
Qed.

Lemma take_fresh_NoDup {A : Type} `{EqDecision A} (n : nat) (l : list A) :
  NoDup (take n (JS.fresh [] l)).
Proof. eapply sublist_NoDup; [apply fresh_NoDup|apply sublist_take]. Qed.

Lemma take_fresh_elem_of {A : Type} `{EqDecision A} (n : nat) (l : list A) x :
  x ∈ take n (JS.fresh [] l) → x ∈ l.
Proof.
  intros (i & Hi & _)%elem_of_take.
  apply list_elem_of_lookup_2 in Hi. by apply fresh_elem_of in Hi as [? _].
Qed.

Lemma take_fresh_length {A : Type} `{EqDecision A} (n : nat) (l : list A) :
  (length (take n (JS.fresh [] l)) ≤ n)%nat.
Proof. rewrite length_take. lia. Qed.

Lemma take_fresh_again {A : Type} `{EqDecision A} (n : nat) (l : list A) :
  take n (JS.fresh [] (take n (JS.fresh [] l))) = take n (JS.fresh [] l).
Proof.
  rewrite fresh_id; [by rewrite take_take, Nat.min_id|apply take_fresh_NoDup|].
  intros x _. apply not_elem_of_nil.
Qed.

Lemma initial_recent_bounded : recent_bounded initial.
Proof.
  unfold recent_bounded. simpl.
  repeat split; try apply NoDup_nil_2; try lia;
    try (by apply elem_of_nil in H); try apply not_elem_of_nil.
Qed.

Lemma get_img_recent_bounded req app :
  recent_bounded app → recent_bounded (get_img req app).2.
Proof.
  intros Hb. destruct (validateInputs req) as [r|res] eqn:Hv.
  { by rewrite (get_img_rejected req app r Hv). }
  destruct (get_img_accepted req res app Hv) as (_ & Hp & Hs & Ht & _).
  destruct Hb as (_ & (_ & _ & Hrange) & (_ & _ & Hempty)).
  unfold recent_bounded. rewrite Hp, Hs, Ht.
  rewrite applyRecentPaths_fresh, applyRecentSizes_push,
    applyRecentTexts_push.
  split; [split; [apply take_fresh_NoDup|apply take_fresh_length]|].
  split.
  - split; [apply take_fresh_NoDup|]. split; [apply take_fresh_length|].
    intros s [->|Hin]%take_fresh_elem_of%elem_of_cons; [|by apply Hrange].
    destruct (validateInputs_ranges req res Hv) as (Hw & Hh & _). done.
  - split; [apply take_fresh_NoDup|]. split; [apply take_fresh_length|].
    intros [Hin|Hin]%take_fresh_elem_of%elem_of_app; [|done].
    destruct (text_of_cases res) as [[Hnil _]|(t & Hone & _ & Hne)].
    + rewrite Hnil in Hin. by apply elem_of_nil in Hin.
    + rewrite Hone in Hin. apply list_elem_of_singleton in Hin. done.
Qed.

Lemma handle_recent_bounded c app :
  recent_bounded app → recent_bounded (handle c app).2.
Proof.
  intros Hb. destruct c as [req| | | | | |]; simpl; try done.
  - by apply get_img_recent_bounded.
  - apply initial_recent_bounded.
Qed.

Lemma reachable_recent_bounded app : reachable app → recent_bounded app.
Proof.
  induction 1 as [|c app Hreach IH]; [|by apply handle_recent_bounded].
  apply initial_recent_bounded.
Qed.

(** X3. In every store the process can reach, [recentPaths] and
    [recentSizes] are duplicate-free, each of the three recent lists has at
    most 10 entries, every recorded size has both fields between 1 and
    2000, and the empty string is not among the recorded texts. *)
Theorem recent_lists_stay_bounded app :
  reachable app →
  (NoDup (recentPaths app) ∧ (length (recentPaths app) ≤ 10)%nat)
  ∧ (NoDup (recentSizes app) ∧ (length (recentSizes app) ≤ 10)%nat
     ∧ ∀ s, s ∈ recentSizes app →
            1 ≤ size_w s ≤ 2000 ∧ 1 ≤ size_h s ≤ 2000)
  ∧ ((length (recentTexts app) ≤ 10)%nat ∧ "" ∉ recentTexts app).
Proof.
  intros Hreach.
  destruct (reachable_recent_bounded app Hreach)
    as (Hpaths & Hsizes & (_ & Hlen & Hempty)).
  done.
Qed.

(** X20. In every store the process can reach, no string is recorded twice
    in [recentTexts]: the texts recorded as strings are pairwise distinct.
    (The requests here carry a string or no text; a text that the query
    parser hands as an array or an object is compared by identity, and is
    not what this is about.) *)
Theorem recorded_strings_are_distinct app :
  reachable app →
  ∀ i j t, recentTexts app !! i = Some t → recentTexts app !! j = Some t →
           i = j.
Proof.
  intros Hreach i j t Hi Hj.
  destruct (reachable_recent_bounded app Hreach) as (_ & _ & (Hnd & _)).
  by eapply NoDup_lookup.
Qed.

Section Pushes.
Context {A : Type} `{EqDecision A}.
Implicit Types (l : list A) (x : A).

Lemma push_front (n : nat) x l :
  NoDup l →
  take n (JS.fresh [] (x :: l)) = take n (x :: filter (λ y, y ≠ x) l).
Proof. intros Hnd. by rewrite fresh_push. Qed.

Lemma push_new_full (n : nat) x l :
  NoDup l → x ∉ l → length l = S n →
  take (S n) (JS.fresh [] (x :: l)) = x :: take n l.
Proof.
  intros Hnd Hx Hlen. rewrite push_front by done.
  by rewrite filter_ne_id.
Qed.

Lemma push_new_room (n : nat) x l :
  NoDup l → x ∉ l → (length l < n)%nat →
  take n (JS.fresh [] (x :: l)) = x :: l.
Proof.
  intros Hnd Hx Hlen. rewrite push_front by done.
  rewrite filter_ne_id by done. apply take_ge. simpl. lia.
Qed.

Lemma move_to_front_perm x l :
  NoDup l → x ∈ l → x :: filter (λ y, y ≠ x) l ≡ₚ l.
Proof.
  intros Hnd. induction Hnd as [|y l Hy Hnd IH]; intros Hx.
  - by apply elem_of_nil in Hx.
  - destruct (decide (y = x)) as [->|Hne].
    + rewrite filter_cons_False by (by intros Hxx; apply Hxx).
      by rewrite filter_ne_id.
    + apply elem_of_cons in Hx as [->|Hx]; [done|].
      rewrite filter_cons_True by done.
      rewrite Permutation_swap. by rewrite IH.
Qed.

Lemma push_known (n : nat) x l :
  NoDup l → x ∈ l → (length l ≤ n)%nat →
  take n (JS.fresh [] (x :: l)) ≡ₚ l.
Proof.
  intros Hnd Hx Hlen. rewrite push_front by done.
  pose proof (move_to_front_perm x l Hnd Hx) as Hperm.
  rewrite take_ge; [done|]. rewrite (Permutation_length Hperm). done.
Qed.

Lemma push_twice (n : nat) x l :
  take n (JS.fresh [] (x :: take n (JS.fresh [] (x :: l))))
  = take n (JS.fresh [] (x :: l)).
Proof.
  rewrite push_take. f_equal.
  change (JS.fresh [] (x :: x :: l))
    with (if bool_decide (x ∈ []) then JS.fresh [] (x :: l)
          else x :: (if bool_decide (x ∈ [x]) then JS.fresh [x] l
                     else x :: JS.fresh [x; x] l)).
  change (JS.fresh [] (x :: l))
    with (if bool_decide (x ∈ []) then JS.fresh [] l else x :: JS.fresh [x] l).
  rewrite !(bool_decide_eq_false_2 (x ∈ [])) by apply not_elem_of_nil.
  by rewrite bool_decide_eq_true_2 by left.
Qed.

End Pushes.

(** X4. On a duplicate-free list each recent stage moves its value to the
    front: the new list is the value, then the old entries other than it in
    their order, cut to 10. *)
Theorem recent_stages_move_to_front req res app :
  NoDup (recentPaths app) → NoDup (recentSizes app) →
  NoDup (recentTexts app) →
  recentPaths (applyRecentPaths req res app)
  = take 10 (url_of req res
             :: filter (λ u, u ≠ url_of req res) (recentPaths app))
  ∧ recentSizes (applyRecentSizes res app)
    = take 10 (sizes_of res
               :: filter (λ s, s ≠ sizes_of res) (recentSizes app))
  ∧ ∀ t, text (queries res) = Some t → t ≠ "" →
         recentTexts (applyRecentTexts res app)
         = take 10 (t :: filter (λ u, u ≠ t) (recentTexts app)).
Proof.
  intros Hp Hs Ht. split; [|split].
  - rewrite applyRecentPaths_fresh. by apply push_front.
  - rewrite applyRecentSizes_push. by apply push_front.
  - intros t Htext Hne. rewrite applyRecentTexts_push. unfold text_of.
    rewrite Htext, (proj2 (truthy_Some t) Hne). by apply push_front.
Qed.

(** X5. A full list of sizes drops its oldest entry for a size it does not
    have, and only reorders for a size it has: with 10 distinct entries and
    a new size the result is the new size followed by the first 9 old
    entries; with a size already listed the result has the same entries as
    before, that size first. *)
Theorem recent_sizes_evict_the_oldest res app :
  NoDup (recentSizes app) → (length (recentSizes app) ≤ 10)%nat →
  (sizes_of res ∉ recentSizes app → length (recentSizes app) = 10%nat →
   recentSizes (applyRecentSizes res app)
   = sizes_of res :: take 9 (recentSizes app))
  ∧ (sizes_of res ∉ recentSizes app → (length (recentSizes app) < 10)%nat →
     recentSizes (applyRecentSizes res app)
     = sizes_of res :: recentSizes app)
  ∧ (sizes_of res ∈ recentSizes app →
     recentSizes (applyRecentSizes res app) ≡ₚ recentSizes app
     ∧ recentSizes (applyRecentSizes res app) !! 0%nat = Some (sizes_of res)).
Proof.
  intros Hnd Hlen. rewrite applyRecentSizes_push. split; [|split].
  - intros Hnew Hfull. by apply push_new_full.
  - intros Hnew Hroom. by apply push_new_room.
  - intros Hold. split; [by apply push_known|].
    rewrite <- applyRecentSizes_push. apply applyRecentSizes_head.
Qed.

Lemma applyRecentPaths_set req res app :
  applyRecentPaths req res app
  = set_recentPaths
      (take 10 (JS.fresh [] (url_of req res :: recentPaths app))) app.
Proof.
  unfold applyRecentPaths, url_of. simpl. unfold JS.slice0.
  by rewrite spread_Set_fresh.
Qed.

Lemma applyRecentSizes_set res app :
  applyRecentSizes res app
  = set_recentSizes
      (take 10 (JS.fresh [] (sizes_of res :: recentSizes app))) app.
Proof.
  pose proof (applyRecentSizes_push res app) as Heq.
  unfold applyRecentSizes in *. simpl in *. by rewrite Heq.
Qed.

Lemma applyRecentTexts_set res app :
  applyRecentTexts res app
  = set_recentTexts
      (take 10 (JS.fresh [] (text_of res ++ recentTexts app))) app.
Proof.
  pose proof (applyRecentTexts_push res app) as Heq.
  unfold applyRecentTexts in *. simpl in *. by rewrite Heq.
Qed.

(** X6. Each recent stage is idempotent: run twice in a row for the same
    request it leaves the store it left the first time, whatever the store
    was. *)
Theorem recent_stages_are_idempotent req res app :
  applyRecentPaths req res (applyRecentPaths req res app)
  = applyRecentPaths req res app
  ∧ applyRecentSizes res (applyRecentSizes res app) = applyRecentSizes res app
  ∧ applyRecentTexts res (applyRecentTexts res app) = applyRecentTexts res app.
Proof.
  split; [|split].
  - rewrite (applyRecentPaths_set req res (applyRecentPaths _ _ _)).
    rewrite applyRecentPaths_set. unfold set_recentPaths.
    cbn [recentPaths recentSizes recentTexts topSizes topReferrers].
    by rewrite push_twice.
  - rewrite (applyRecentSizes_set res (applyRecentSizes _ _)).
    rewrite applyRecentSizes_set. unfold set_recentSizes.
    cbn [recentPaths recentSizes recentTexts topSizes topReferrers].
    by rewrite push_twice.
  - rewrite (applyRecentTexts_set res (applyRecentTexts _ _)).
    rewrite applyRecentTexts_set. unfold set_recentTexts.
    cbn [recentPaths recentSizes recentTexts topSizes topReferrers].
    destruct (text_of_cases res) as [[-> _]|(t & -> & _)];
      cbn [Datatypes.app].
    + by rewrite take_fresh_again.
    + by rewrite push_twice.
Qed.

Lemma run_snoc cs c app : run (cs ++ [c]) app = (handle c (run cs app)).2.
Proof. unfold run. by rewrite foldl_snoc. Qed.

Lemma accepted_log_snoc cs c :
  accepted_log (cs ++ [c]) = log_call (accepted_log cs) c.
Proof. unfold accepted_log. by rewrite foldl_snoc. Qed.

Lemma run_reachable cs : reachable (run cs initial).
Proof.
  induction cs as [|c cs IH] using rev_ind; [constructor|].
  rewrite run_snoc. by constructor.
Qed.

Lemma get_img_keeps req res app log :
  validateInputs req = inr res →
  keeps app log → keeps (get_img req app).2 ((req, res) :: log).
Proof.
  intros Hv (Hp & Hs & Ht).
  destruct (get_img_accepted req res app Hv) as (_ & Hp' & Hs' & Ht' & _).
  unfold keeps. rewrite Hp', Hs', Ht'.
  rewrite applyRecentPaths_fresh, applyRecentSizes_push,
    applyRecentTexts_push, Hp, Hs, Ht.
  rewrite !fmap_cons. cbn [fst snd concat].
  split; [apply push_take|]. split; [apply push_take|].
  destruct (text_of_cases res) as [[-> _]|(t & -> & _)]; cbn [Datatypes.app].
  - apply take_fresh_again.
  - apply push_take.
Qed.

Lemma run_keeps cs : keeps (run cs initial) (accepted_log cs).
Proof.
  induction cs as [|c cs IH] using rev_ind; [done|].
  rewrite run_snoc, accepted_log_snoc.
  destruct c as [req| | | | | |]; simpl; try done.
  destruct (validateInputs req) as [r|res] eqn:Hv.
  - by rewrite (get_img_rejected req _ r Hv).
  - by apply get_img_keeps.
Qed.

(** X7. From the start of the process, [recentPaths] is the 10 most recent
    distinct URLs that the accepted image requests since the last reset
    recorded, most recent first, and [recentSizes] the 10 most recent
    distinct sizes of those requests. *)
Theorem recent_lists_keep_the_latest cs :
  recentPaths (run cs initial)
  = take 10 (JS.fresh [] ((λ e, url_of e.1 e.2) <$> accepted_log cs))
  ∧ recentSizes (run cs initial)
    = take 10 (JS.fresh [] ((λ e, sizes_of e.2) <$> accepted_log cs)).
Proof. destruct (run_keeps cs) as (Hp & Hs & _). by split. Qed.

(** X21. From the start of the process, through calls whose image requests
    carry a string or no text (the requests of this development),
    [recentTexts] is the 10 most recent distinct non-empty texts of the
    accepted image requests since the last reset, most recent first. *)
Theorem recent_texts_keep_the_latest cs :
  recentTexts (run cs initial)
  = take 10 (JS.fresh [] (concat ((λ e, text_of e.2) <$> accepted_log cs))).
Proof. by destruct (run_keeps cs) as (_ & _ & Ht). Qed.

Lemma fresh_app {A : Type} `{EqDecision A} (seen l k : list A) :
  JS.fresh seen (l ++ k) = JS.fresh seen l ++ JS.fresh (l ++ seen) k.
Proof.
  revert seen. induction l as [|x l IH]; intros seen; simpl; [done|].
  case_bool_decide as Hx.
  - rewrite IH. f_equal. apply fresh_ext. intros y. set_solver.
  - simpl. f_equal. rewrite IH. f_equal. apply fresh_ext. intros y.
    set_solver.
Qed.

Lemma take_fresh_distinct {A : Type} `{EqDecision A} (n : nat) (l : list A) :
  NoDup (take n l) → take n (JS.fresh [] l) = take n l.
Proof.
  intros Hnd. rewrite <- (take_drop n l) at 1. rewrite fresh_app.
  rewrite fresh_id; [|done|intros x _; apply not_elem_of_nil].
  destruct (decide (n ≤ length l)%nat) as [Hle|Hgt].
  - rewrite take_app_le by (rewrite length_take; lia).
    by rewrite take_take, Nat.min_id.
  - rewrite drop_ge by lia. simpl. rewrite app_nil_r.
    by rewrite take_take, Nat.min_id.
Qed.

(** X8. When the last 10 accepted image requests (or all of them, if
    fewer) have pairwise distinct sizes, [recentSizes] lists exactly their
    sizes, most recent first. *)
Theorem distinct_sizes_are_all_listed cs :
  NoDup (take 10 ((λ e, sizes_of e.2) <$> accepted_log cs)) →
  recentSizes (run cs initial)
  = take 10 ((λ e, sizes_of e.2) <$> accepted_log cs).
Proof.
  intros Hnd. destruct (run_keeps cs) as (_ & -> & _).
  by apply take_fresh_distinct.
Qed.

(** ** Keys *)

Lemma numeric_has_char c s :
  numeric s = true → numeric_char c = false → has_char c s = false.
Proof.
  intros Hs Hc. induction s as [|c' s IH]; simpl in *; [done|].
  apply andb_true_iff in Hs as [Hc' Hs]. rewrite IH by done.
  destruct (Ascii.eqb_spec c' c) as [->|_]; [congruence|done].
Qed.

Lemma pretty_N_go_numeric (x : N) (s : string) :
  numeric s = true → numeric (pretty_N_go x s) = true.
Proof.
  revert s. induction (N.lt_wf_0 x) as [x _ IH]; intros s Hs.
  assert (x = 0 ∨ 0 < x)%N as [->|Hx] by lia; [by rewrite pretty_N_go_0|].
  rewrite pretty_N_go_step by done. apply IH; [by apply N.div_lt|].
  simpl. rewrite Hs, andb_true_r.
  unfold pretty_N_char. by repeat case_match.
Qed.

Lemma pretty_N_numeric (x : N) : numeric (pretty x) = true.
Proof.
  unfold pretty, pretty_N. case_decide; [done|]. by apply pretty_N_go_numeric.
Qed.

Lemma show_numeric (z : Z) : numeric (JS.show z) = true.
Proof.
  unfold JS.show, pretty, pretty_Z. destruct z as [|p|p]; [done| |].
  - apply pretty_N_numeric.
  - simpl. apply pretty_N_numeric.
Qed.

Lemma split_at_char c (a1 a2 b1 b2 : string) :
  has_char c a1 = false → has_char c a2 = false →
  a1 +:+ String c b1 = a2 +:+ String c b2 → a1 = a2 ∧ b1 = b2.
Proof.
  revert a2. induction a1 as [|x a1 IH]; intros [|y a2]; simpl.
  - by intros _ _ [= ->].
  - intros _ Hy [= <- _]. by rewrite Ascii.eqb_refl in Hy.
  - intros Hx _ [= -> _]. by rewrite Ascii.eqb_refl in Hx.
  - intros [_ Hx]%orb_false_iff [_ Hy]%orb_false_iff [= -> Heq].
    destruct (IH a2 Hx Hy Heq) as [-> ->]. done.
Qed.

Lemma sizeKey_inj w h w' h' : sizeKey w h = sizeKey w' h' → w = w' ∧ h = h'.
Proof.
  unfold sizeKey. intros Heq.
  apply (split_at_char "x") in Heq as [Hw Hh];
    [|by apply numeric_has_char; [apply show_numeric|]..].
  split; by apply (inj pretty).
Qed.

(** X9. The key of [topSizes] tells the size: two validated sizes have the
    same key ["{width}x{height}"] only when they have the same width and the
    same height, so no two sizes share a counter. *)
Theorem size_key_tells_the_size w h w' h' :
  sizeKey w h = sizeKey w' h' ↔ w = w' ∧ h = h'.
Proof. split; [apply sizeKey_inj|by intros [-> ->]]. Qed.

(** ** The tables over time *)

Lemma get_img_tables_consistent req app :
  tables_consistent app → tables_consistent (get_img req app).2.
Proof.
  intros [Hs Hr]. destruct (validateInputs req) as [r|res] eqn:Hv.
  { by rewrite (get_img_rejected req app r Hv). }
  destruct (get_img_accepted req res app Hv) as (_ & _ & _ & _ & Hts & Htr).
  unfold tables_consistent. rewrite Hts, Htr. split.
  - rewrite applyTopSizes_insert. intros k r. rewrite lookup_insert.
    case_decide as Hk; [|apply Hs]. intros [= <-]. subst k.
    destruct (topSizes app !! _) as [r1|] eqn:Hr1; simpl.
    + destruct (Hs _ _ Hr1) as (Hkey & Hw & Hh).
      apply sizeKey_inj in Hkey as [-> ->]. done.
    + destruct (validateInputs_ranges req res Hv) as (Hw & Hh & _). done.
  - unfold applyTopReferrers. cbn [topReferrers set_topReferrers].
    destruct (req_referer req) as [k|]; [|done].
    destruct (JS.truthy (Some k)) eqn:Hk; [|done].
    apply truthy_Some in Hk.
    destruct (JS.inherited k) eqn:Hi.
    + rewrite bump_inherited; [done|done|].
      destruct (topReferrers app !! k) as [r1|] eqn:Hr1; [|done].
      destruct (Hr _ _ Hr1) as (_ & _ & Hni). congruence.
    + rewrite bump_own by done. intros k' r. rewrite lookup_insert.
      case_decide as Hk'; [|apply Hr]. intros [= <-]. subst k'.
      destruct (topReferrers app !! k) as [r1|] eqn:Hr1; simpl; [|done].
      by destruct (Hr _ _ Hr1) as (-> & _ & _).
Qed.

Lemma reachable_tables_consistent app :
  reachable app → tables_consistent app.
Proof.
  induction 1 as [|c app Hreach IH]; [by split|].
  destruct c as [req| | | | | |]; simpl; try done.
  by apply get_img_tables_consistent.
Qed.

(** X10. In every store the process can reach, a record of [topSizes] sits
    under the key made of its own [w] and [h], both between 1 and 2000, and
    a record of [topReferrers] sits under its own [ref], which is not empty
    and is not a name that every object inherits. *)
Theorem table_records_match_their_keys app :
  reachable app → tables_consistent app.
Proof. exact (reachable_tables_consistent app). Qed.

Lemma requests_for_size_cons w h req res log :
  requests_for_size w h ((req, res) :: log)
  = if decide (sizes_of res = {| size_w := w; size_h := h |})
    then S (requests_for_size w h log) else requests_for_size w h log.
Proof.
  unfold requests_for_size. rewrite filter_cons. cbn [snd].
  by case_decide.
Qed.

Lemma requests_for_referrer_cons k req res log :
  requests_for_referrer k ((req, res) :: log)
  = if counts_referrer k req
    then S (requests_for_referrer k log) else requests_for_referrer k log.
Proof.
  unfold requests_for_referrer. rewrite filter_cons. cbn [fst].
  destruct (counts_referrer k req); by case_decide.
Qed.

Lemma counts_referrer_spec k req :
  counts_referrer k req = true
  ↔ req_referer req = Some k ∧ k ≠ "" ∧ JS.inherited k = false.
Proof.
  unfold counts_referrer.
  rewrite !andb_true_iff, bool_decide_eq_true, truthy_Some, negb_true_iff.
  tauto.
Qed.

Lemma requests_for_inherited k log :
  JS.inherited k = true → requests_for_referrer k log = 0%nat.
Proof.
  intros Hi. induction log as [|[req res] log IH]; [done|].
  rewrite requests_for_referrer_cons, IH.
  destruct (counts_referrer k req) eqn:Hc; [|done].
  apply counts_referrer_spec in Hc as (_ & _ & Hni). congruence.
Qed.

Lemma applyTopReferrers_counts req app :
  (∀ k, JS.inherited k = true → topReferrers app !! k = None) →
  topReferrers (applyTopReferrers req app)
  = match req_referer req with
    | Some k =>
        if counts_referrer k req
        then <[k := bump_referrer
                      (default (new_referrer k) (topReferrers app !! k))]>
               (topReferrers app)
        else topReferrers app
    | None => topReferrers app
    end.
Proof.
  intros Hnone. unfold applyTopReferrers, counts_referrer.
  cbn [topReferrers set_topReferrers].
  destruct (req_referer req) as [k|]; [|done].
  rewrite bool_decide_eq_true_2 by done.
  destruct (JS.truthy (Some k)) eqn:Ht; [|done].
  destruct (JS.inherited k) eqn:Hi; cbn [andb negb].
  - apply bump_inherited; [done|by apply Hnone].
  - by apply bump_own.
Qed.

Lemma get_img_counted req res app log :
  validateInputs req = inr res →
  counted app log → counted (get_img req app).2 ((req, res) :: log).
Proof.
  intros Hv [Hs Hr].
  destruct (get_img_accepted req res app Hv) as (_ & _ & _ & _ & Hts & Htr).
  unfold counted. rewrite Hts, Htr. split.
  - intros w h. rewrite applyTopSizes_insert, lookup_insert.
    rewrite requests_for_size_cons. unfold sizes_of.
    case_decide as Hk.
    + apply sizeKey_inj in Hk as [<- <-].
      rewrite decide_True by done. rewrite Hs.
      destruct (requests_for_size _ _ log) as [|n]; [done|].
      unfold size_record, bump_size. simpl. do 2 f_equal. lia.
    + rewrite decide_False; [apply Hs|].
      intros [= Hw Hh]. apply Hk. by rewrite Hw, Hh.
  - intros k. rewrite requests_for_referrer_cons.
    rewrite applyTopReferrers_counts.
    2:{ intros k' Hi. by rewrite Hr, requests_for_inherited. }
    destruct (req_referer req) as [k'|] eqn:Hk'.
    + destruct (decide (k' = k)) as [->|Hne].
      * destruct (counts_referrer k req); [|apply Hr].
        rewrite lookup_insert_eq, Hr.
        destruct (requests_for_referrer k log) as [|n]; [done|].
        unfold referrer_record, bump_referrer. simpl. do 2 f_equal. lia.
      * assert (Hc : counts_referrer k req = false).
        { apply not_true_iff_false. intros (Heq & _)%counts_referrer_spec.
          congruence. }
        rewrite Hc. destruct (counts_referrer k' req); [|apply Hr].
        rewrite lookup_insert_ne by done. apply Hr.
    + assert (Hc : counts_referrer k req = false).
      { apply not_true_iff_false. intros (Heq & _)%counts_referrer_spec.
        congruence. }
      rewrite Hc. apply Hr.
Qed.

Lemma run_counted cs : counted (run cs initial) (accepted_log cs).
Proof.
  induction cs as [|c cs IH] using rev_ind; [by split|].
  rewrite run_snoc, accepted_log_snoc.
  destruct c as [req| | | | | |]; simpl; try done.
  destruct (validateInputs req) as [r|res] eqn:Hv.
  - by rewrite (get_img_rejected req _ r Hv).
  - by apply get_img_counted.
Qed.

(** X11. From the start of the process, [topSizes] holds for a size exactly
    the record [{ w, h, n }] with [n] the number of accepted image requests
    for that size since the last reset, and no record when there was none. *)
Theorem top_sizes_count_the_requests cs w h :
  topSizes (run cs initial) !! sizeKey w h
  = size_record w h (requests_for_size w h (accepted_log cs)).
Proof. by destruct (run_counted cs) as [Hs _]. Qed.

(** X12. From the start of the process, [topReferrers] holds for a string
    exactly the record [{ ref, n }] with [n] the number of accepted image
    requests since the last reset whose referrer header is that string,
    provided it is not empty and is not a name every object inherits; it
    holds no record under any other key. *)
Theorem top_referrers_count_the_requests cs k :
  topReferrers (run cs initial) !! k
  = referrer_record k (requests_for_referrer k (accepted_log cs)).
Proof. by destruct (run_counted cs) as [_ Hr]. Qed.

(** ** More on the top endpoints *)

Lemma topTen_length {R : Type} `{EqDecision R} (n : R → Z) (records : list R) :
  length (topTen n records) = (10 `min` length records)%nat.
Proof.
  unfold topTen, JS.slice0.
  by rewrite length_take, (Permutation_length (sort_desc_perm n records)).
Qed.

Lemma topTen_all {R : Type} `{EqDecision R} (n : R → Z) (records : list R) :
  (length records ≤ 10)%nat → topTen n records ≡ₚ records.
Proof.
  intros Hlen. unfold topTen, JS.slice0. rewrite take_ge.
  - apply sort_desc_perm.
  - by rewrite (Permutation_length (sort_desc_perm n records)).
Qed.

Lemma topTen_first_is_maximal {R : Type} `{EqDecision R} (n : R → Z)
    (records : list R) r0 out :
  topTen n records = r0 :: out → ∀ r, r ∈ records → n r ≤ n r0.
Proof.
  intros Hout r Hr.
  destruct (topTen_ranked n records) as (_ & Hsorted & rest & Hperm & Hle).
  rewrite Hout in *. rewrite <- Hperm in Hr.
  apply elem_of_app in Hr as [Hin|Hin].
  - apply elem_of_cons in Hin as [->|Hin]; [lia|].
    apply StronglySorted_inv in Hsorted as [_ Hall].
    rewrite Forall_forall in Hall. by apply Hall.
  - apply (Hle r0 r); [left|done].
Qed.

Lemma topTen_nonempty {R : Type} `{EqDecision R} (n : R → Z)
    (records : list R) :
  records ≠ [] → topTen n records ≠ [].
Proof.
  intros Hne Hnil. apply (f_equal length) in Hnil.
  rewrite topTen_length in Hnil. destruct records; [done|]. simpl in Hnil. lia.
Qed.

(** X13. A top endpoint sends as many records as its table has, up to 10;
    a table of at most 10 records is sent whole; and the first record sent
    has a count no record of the table exceeds. *)
Theorem top_endpoints_send_the_most_requested app :
  (∃ out,
     (serveTopSizes app).1 = Json (TopSizes out)
     ∧ length out = (10 `min` size (topSizes app))%nat
     ∧ ((size (topSizes app) ≤ 10)%nat →
        ∀ r, r ∈ out ↔ ∃ k, topSizes app !! k = Some r)
     ∧ ∀ r0, out !! 0%nat = Some r0 →
             ∀ k r, topSizes app !! k = Some r → ts_n r ≤ ts_n r0)
  ∧ (∃ out,
       (serveTopReferrers app).1 = Json (TopReferrers out)
       ∧ length out = (10 `min` size (topReferrers app))%nat
       ∧ ((size (topReferrers app) ≤ 10)%nat →
          ∀ r, r ∈ out ↔ ∃ k, topReferrers app !! k = Some r)
       ∧ ∀ r0, out !! 0%nat = Some r0 →
               ∀ k r, topReferrers app !! k = Some r → tr_n r ≤ tr_n r0).
Proof.
  split.
  - eexists. split; [done|].
    assert (Hlen : length (JS.values (topSizes app)) = size (topSizes app)).
    { unfold JS.values. by rewrite length_fmap, length_map_to_list. }
    split; [by rewrite topTen_length, Hlen|]. split.
    + intros Hsmall r. rewrite topTen_all by (by rewrite Hlen).
      apply elem_of_values.
    + intros r0 Hhead k r Hk.
      destruct (topTen ts_n (JS.values (topSizes app))) as [|r1 out] eqn:Hout;
        [done|].
      injection Hhead as ->.
      apply (topTen_first_is_maximal ts_n _ _ _ Hout).
      apply elem_of_values. by exists k.
  - eexists. split; [done|].
    assert (Hlen : length (JS.values (topReferrers app))
                   = size (topReferrers app)).
    { unfold JS.values. by rewrite length_fmap, length_map_to_list. }
    split; [by rewrite topTen_length, Hlen|]. split.
    + intros Hsmall r. rewrite topTen_all by (by rewrite Hlen).
      apply elem_of_values.
    + intros r0 Hhead k r Hk.
      destruct (topTen tr_n (JS.values (topReferrers app)))
        as [|r1 out] eqn:Hout; [done|].
      injection Hhead as ->.
      apply (topTen_first_is_maximal tr_n _ _ _ Hout).
      apply elem_of_values. by exists k.
Qed.

(** ** Totals *)

Lemma sum_counts_perm {R : Type} (n : R → Z) (l k : list R) :
  l ≡ₚ k → sum_counts n l = sum_counts n k.
Proof.
  induction 1 as [|x l k _ IH|x y l|l k m _ IH1 _ IH2]; simpl.
  - done.
  - by rewrite IH.
  - lia.
  - by rewrite IH1.
Qed.

Lemma total_insert_new {R : Type} (n : R → Z) (o : gmap string R) k r :
  o !! k = None → total n (<[k := r]> o) = n r + total n o.
Proof.
  intros Hk. unfold total, JS.values.
  rewrite (sum_counts_perm n _ (((k, r) :: map_to_list o).*2)).
  - done.
  - apply fmap_Permutation. by apply map_to_list_insert.
Qed.

Lemma total_insert_old {R : Type} (n : R → Z) (o : gmap string R) k r r' :
  o !! k = Some r' → total n (<[k := r]> o) = n r - n r' + total n o.
Proof.
  intros Hk. rewrite <- (insert_delete_eq o).
  rewrite total_insert_new by apply lookup_delete_eq.
  assert (Ho : total n o = n r' + total n (delete k o)).
  { unfold total, JS.values.
    rewrite <- (sum_counts_perm n _ _
                  (fmap_Permutation snd _ _ (map_to_list_delete o k r' Hk))).
    done. }
  lia.
Qed.

Lemma total_bump {R : Type} (n : R → Z) (bump : R → R) (o : gmap string R)
    k r0 :
  (∀ r, n (bump r) = n r + 1) → n r0 = 0 →
  total n (<[k := bump (default r0 (o !! k))]> o) = total n o + 1.
Proof.
  intros Hbump H0. destruct (o !! k) as [r|] eqn:Hk; simpl.
  - rewrite (total_insert_old n o k _ r Hk), Hbump. lia.
  - rewrite total_insert_new by done. rewrite Hbump. lia.
Qed.

Lemma total_empty {R : Type} (n : R → Z) : total n (∅ : gmap string R) = 0.
Proof. unfold total. by rewrite values_empty. Qed.

Lemma run_totals cs :
  total ts_n (topSizes (run cs initial)) = Z.of_nat (length (accepted_log cs))
  ∧ total tr_n (topReferrers (run cs initial))
    = Z.of_nat
        (length (filter (λ e, counts_some_referrer e.1 = true)
                   (accepted_log cs))).
Proof.
  induction cs as [|c cs [IHs IHr]] using rev_ind.
  { split; apply total_empty. }
  rewrite run_snoc, accepted_log_snoc.
  destruct c as [req| | | | | |]; simpl; try done;
    try (split; apply total_empty).
  destruct (validateInputs req) as [r|res] eqn:Hv.
  { by rewrite (get_img_rejected req _ r Hv). }
  destruct (get_img_accepted req res (run cs initial) Hv)
    as (_ & _ & _ & _ & -> & ->).
  split.
  - rewrite applyTopSizes_insert, total_bump by done. rewrite IHs.
    cbn [length]. lia.
  - rewrite applyTopReferrers_counts.
    2:{ intros k Hi. destruct (run_counted cs) as [_ Hr].
        by rewrite Hr, requests_for_inherited. }
    assert (Hc : counts_some_referrer req
                 = match req_referer req with
                   | Some k => counts_referrer k req
                   | None => false
                   end) by done.
    rewrite filter_cons. cbn [fst]. rewrite Hc. clear Hc.
    destruct (req_referer req) as [k|]; [|by rewrite decide_False].
    destruct (counts_referrer k req).
    + rewrite decide_True by done. rewrite total_bump by done.
      rewrite IHr. cbn [length]. lia.
    + by rewrite decide_False.
Qed.

(** X14. From the start of the process, the counts of [topSizes] add up to
    the number of accepted image requests since the last reset, and the
    counts of [topReferrers] to the number of those whose referrer was
    counted. *)
Theorem counts_add_up_to_the_requests cs :
  total ts_n (topSizes (run cs initial)) = Z.of_nat (length (accepted_log cs))
  ∧ total tr_n (topReferrers (run cs initial))
    = Z.of_nat
        (length (filter (λ e, counts_some_referrer e.1 = true)
                   (accepted_log cs))).
Proof. exact (run_totals cs). Qed.

Lemma reachable_run app : reachable app → ∃ cs, app = run cs initial.
Proof.
  induction 1 as [|c app _ [cs ->]]; [by exists []|].
  exists (cs ++ [c]). by rewrite run_snoc.
Qed.

(** X15. In every store the process can reach, each size of [recentSizes]
    has a record in [topSizes], under its key, with the same [w] and [h]
    and a count of at least 1. *)
Theorem recent_sizes_are_counted app s :
  reachable app → s ∈ recentSizes app →
  ∃ n, topSizes app !! sizeKey (size_w s) (size_h s)
       = Some {| ts_w := size_w s; ts_h := size_h s; ts_n := n |}
       ∧ 1 ≤ n.
Proof.
  intros [cs ->]%reachable_run Hin.
  destruct (run_keeps cs) as (_ & Hs & _).
  destruct (run_counted cs) as [Hc _].
  rewrite Hs in Hin. apply take_fresh_elem_of in Hin.
  apply list_elem_of_fmap in Hin as ([req res] & -> & Hin).
  rewrite Hc. unfold requests_for_size.
  assert (Hfil : (req, res) ∈ filter
                   (λ e, sizes_of e.2
                         = {| size_w := size_w (sizes_of res);
                              size_h := size_h (sizes_of res) |})
                   (accepted_log cs)).
  { apply list_elem_of_filter. split; [reflexivity|done]. }
  destruct (filter _ _) as [|e l] eqn:Hl; [by apply elem_of_nil in Hfil|].
  cbn [length size_record]. eexists. split; [done|]. lia.
Qed.

(** ** The recorded URL *)

Lemma numeric_unreserved c : numeric_char c = true → JS.unreserved c = true.
Proof.
  unfold numeric_char, JS.unreserved. intros [Hd|Hm]%orb_true_iff.
  - apply orb_true_iff. left. apply orb_true_iff. by right.
  - apply Ascii.eqb_eq in Hm as ->. done.
Qed.

Lemma encode_numeric s : numeric s = true → JS.encodeURIComponent s = s.
Proof.
  induction s as [|c s IH]; simpl; [done|].
  intros [Hc Hs]%andb_true_iff.
  by rewrite (numeric_unreserved c Hc), IH.
Qed.

Lemma unhex_hex_digit (n : N) : (n < 16)%N → unhex (JS.hex_digit n) = n.
Proof.
  intros Hn.
  assert (Hcases : ∃ k : nat, n = N.of_nat k ∧ (k < 16)%nat)
    by (exists (N.to_nat n); lia).
  destruct Hcases as (k & -> & Hk).
  do 16 (destruct k as [|k]; [done|]). lia.
Qed.

Lemma escape_inj (c1 c2 : ascii) :
  JS.hex_digit (N_of_ascii c1 / 16) = JS.hex_digit (N_of_ascii c2 / 16) →
  JS.hex_digit (N_of_ascii c1 mod 16) = JS.hex_digit (N_of_ascii c2 mod 16) →
  c1 = c2.
Proof.
  intros Hhi Hlo.
  pose proof (N_ascii_bounded c1) as Hb1.
  pose proof (N_ascii_bounded c2) as Hb2.
  apply (f_equal unhex) in Hhi, Hlo.
  rewrite !unhex_hex_digit in Hhi, Hlo
    by (try apply N.mod_lt; try apply N.Div0.div_lt_upper_bound; lia).
  assert (Heq : N_of_ascii c1 = N_of_ascii c2).
  { rewrite (N.div_mod (N_of_ascii c1) 16), (N.div_mod (N_of_ascii c2) 16)
      by lia. lia. }
  rewrite <- (ascii_N_embedding c1), <- (ascii_N_embedding c2). by rewrite Heq.
Qed.

Lemma encodeURIComponent_inj s1 s2 :
  JS.encodeURIComponent s1 = JS.encodeURIComponent s2 → s1 = s2.
Proof.
  revert s2. induction s1 as [|c1 s1 IH]; intros [|c2 s2]; simpl.
  - done.
  - by destruct (JS.unreserved c2).
  - by destruct (JS.unreserved c1).
  - destruct (JS.unreserved c1) eqn:H1, (JS.unreserved c2) eqn:H2.
    + intros [= -> Heq]. f_equal. by apply IH.
    + intros [= -> _]. done.
    + intros [= <- _]. done.
    + intros [= Hhi Hlo Heq]. f_equal; [by apply escape_inj|by apply IH].
Qed.

Lemma has_char_app c (a b : string) : has_char c (a +:+ String c b) = true.
Proof.
  induction a as [|x a IH]; simpl.
  - by rewrite Ascii.eqb_refl.
  - by rewrite IH, orb_true_r.
Qed.

Lemma string_app_inv_head (p a b : string) : p +:+ a = p +:+ b → a = b.
Proof. induction p as [|c p IH]; simpl; [done|]. intros [= Heq]. by apply IH. Qed.

Lemma append_cons (x : ascii) (a b : string) :
  String x a +:+ b = String x (a +:+ b).
Proof. reflexivity. Qed.

Lemma string_app_assoc (a b c : string) : (a +:+ b) +:+ c = a +:+ b +:+ c.
Proof.
  induction a as [|x a IH]; [done|]. rewrite !append_cons. by f_equal.
Qed.

Lemma url_of_shape req res :
  url_of req res
  = req_path req
    +:+ match effective_square res, effective_text res with
        | None, None => ""
        | Some z, None => "?square=" +:+ JS.show z
        | None, Some t => "?text=" +:+ JS.encodeURIComponent t
        | Some z, Some t =>
            "?square=" +:+ JS.show z +:+ "&text=" +:+ JS.encodeURIComponent t
        end.
Proof.
  unfold url_of, effective_square, effective_text, query_entries.
  destruct (square (queries res)) as [z|], (text (queries res)) as [t|];
    cbn [from_option List.filter JS.truthy_value snd fst];
    try destruct (z =? 0); try destruct (String.eqb t "");
    cbn [negb map JS.join JS.to_string fst snd];
    rewrite ?encode_numeric by apply show_numeric; simpl;
    by rewrite ?string_app_assoc.
Qed.

(** X16. The URL that [applyRecentPaths] records is the request path
    followed by the query values that are truthy, [square] before [text],
    the text percent-encoded: nothing after the path when there is none,
    and no [text=] for an empty text. It is the entry at index 0 after the
    stage. *)
Theorem recorded_url_shows_the_truthy_queries req res app :
  recentPaths (applyRecentPaths req res app) !! 0%nat = Some (url_of req res)
  ∧ url_of req res
    = req_path req
      +:+ match effective_square res, effective_text res with
          | None, None => ""
          | Some z, None => "?square=" +:+ JS.show z
          | None, Some t => "?text=" +:+ JS.encodeURIComponent t
          | Some z, Some t =>
              "?square=" +:+ JS.show z +:+ "&text="
              +:+ JS.encodeURIComponent t
          end.
Proof.
  split; [|apply url_of_shape].
  by rewrite applyRecentPaths_fresh.
Qed.

Lemma show_has_no_amp z : has_char "&" (JS.show z) = false.
Proof. by apply numeric_has_char; [apply show_numeric|]. Qed.

Lemma square_part_inj z1 z2 (b1 b2 : string) :
  JS.show z1 +:+ String "&" b1 = JS.show z2 +:+ String "&" b2 →
  z1 = z2 ∧ b1 = b2.
Proof.
  intros [Hz Hb]%split_at_char; [|apply show_has_no_amp..].
  split; [by apply (inj pretty)|done].
Qed.

Lemma square_part_ends z1 z2 (b : string) :
  JS.show z1 +:+ String "&" b ≠ JS.show z2.
Proof.
  intros Heq. apply (f_equal (has_char "&")) in Heq.
  by rewrite has_char_app, show_has_no_amp in Heq.
Qed.

Lemma url_queries_inj req1 res1 req2 res2 :
  req_path req1 = req_path req2 → url_of req1 res1 = url_of req2 res2 →
  effective_square res1 = effective_square res2
  ∧ effective_text res1 = effective_text res2.
Proof.
  intros Hpath. rewrite !url_of_shape, Hpath. intros Heq%string_app_inv_head.
  destruct (effective_square res1) as [z1|], (effective_text res1) as [t1|],
    (effective_square res2) as [z2|], (effective_text res2) as [t2|];
    try done;
    try (apply (string_app_inv_head "?square=") in Heq);
    try (apply (string_app_inv_head "?text=") in Heq);
    try (change ("&text=" +:+ ?e) with (String "&" ("text=" +:+ e)) in Heq).
  - apply square_part_inj in Heq as [-> Heq].
    apply (string_app_inv_head "text=") in Heq.
    by apply encodeURIComponent_inj in Heq as ->.
  - by apply square_part_ends in Heq.
  - symmetry in Heq. by apply square_part_ends in Heq.
  - apply (inj pretty) in Heq as ->. done.
  - by apply encodeURIComponent_inj in Heq as ->.
Qed.

(** X17. For requests whose text is a string or absent, the recorded URL
    tells the query: two such requests with the same path are recorded
    under the same URL exactly when they have the same truthy [square] and
    the same truthy text string. (A text that the query parser hands as an
    array is recorded under the URL of its comma-joined string form, and can
    share it with a string text; that case is not among the requests
    here.) *)
Theorem recorded_url_tells_the_query req1 res1 req2 res2 :
  req_path req1 = req_path req2 →
  (url_of req1 res1 = url_of req2 res2
   ↔ effective_square res1 = effective_square res2
     ∧ effective_text res1 = effective_text res2).
Proof.
  intros Hpath. split; [by apply url_queries_inj|].
  intros [Hs Ht]. by rewrite !url_of_shape, Hpath, Hs, Ht.
Qed.

(** ** The top endpoints over time *)

Lemma topTen_elem_of {R : Type} `{EqDecision R} (n : R → Z)
    (records : list R) r :
  r ∈ topTen n records → r ∈ records.
Proof.
  intros Hin. destruct (topTen_ranked n records) as (_ & _ & rest & Hperm & _).
  rewrite <- Hperm. apply elem_of_app. by left.
Qed.

Lemma size_record_Some w h n r :
  size_record w h n = Some r →
  r = {| ts_w := w; ts_h := h; ts_n := Z.of_nat n |} ∧ (1 ≤ n)%nat.
Proof. destruct n; [done|]. intros [= <-]. split; [done|lia]. Qed.

Lemma referrer_record_Some k n r :
  referrer_record k n = Some r →
  r = {| tr_ref := k; tr_n := Z.of_nat n |} ∧ (1 ≤ n)%nat.
Proof. destruct n; [done|]. intros [= <-]. split; [done|lia]. Qed.

(** X19. From the start of the process, every record the top-sizes
    endpoint sends is [{ w, h, n }] with [n] the number of accepted image
    requests for that size since the last reset, and the first one has a
    count that no size was requested more often than; likewise for the
    top-referrers endpoint and the referrers that were counted. Each
    endpoint sends as many records as its table has, up to 10, and the
    top-sizes endpoint sends at least one once an image request was
    accepted since the last reset. *)
Theorem top_endpoints_rank_the_requests cs :
  (∃ out,
     (serveTopSizes (run cs initial)).1 = Json (TopSizes out)
     ∧ length out = (10 `min` size (topSizes (run cs initial)))%nat
     ∧ (accepted_log cs ≠ [] → out ≠ [])
     ∧ (∀ r, r ∈ out →
             ts_n r
             = Z.of_nat
                 (requests_for_size (ts_w r) (ts_h r) (accepted_log cs))
             ∧ 1 ≤ ts_n r)
     ∧ ∀ r0, out !! 0%nat = Some r0 →
             ∀ w h,
               Z.of_nat (requests_for_size w h (accepted_log cs)) ≤ ts_n r0)
  ∧ (∃ out,
       (serveTopReferrers (run cs initial)).1 = Json (TopReferrers out)
       ∧ length out = (10 `min` size (topReferrers (run cs initial)))%nat
       ∧ (∀ r, r ∈ out →
               tr_n r
               = Z.of_nat (requests_for_referrer (tr_ref r) (accepted_log cs))
               ∧ 1 ≤ tr_n r)
       ∧ ∀ r0, out !! 0%nat = Some r0 →
               ∀ k,
                 Z.of_nat (requests_for_referrer k (accepted_log cs))
                 ≤ tr_n r0).
Proof.
  destruct (run_counted cs) as [Hs Hr].
  destruct (reachable_tables_consistent _ (run_reachable cs)) as [Hks Hkr].
  split.
  - eexists. split; [done|].
    split.
    { rewrite topTen_length. unfold JS.values.
      by rewrite length_fmap, length_map_to_list. }
    split.
    { intros Hlog. apply topTen_nonempty.
      destruct (accepted_log cs) as [|[req res] log] eqn:Hl; [done|].
      intros Hnil.
      specialize (Hs (size_w (sizes_of res)) (size_h (sizes_of res))).
      rewrite requests_for_size_cons, decide_True in Hs by done.
      assert (Hv : {| ts_w := size_w (sizes_of res);
                      ts_h := size_h (sizes_of res);
                      ts_n := Z.of_nat
                                (S (requests_for_size (size_w (sizes_of res))
                                      (size_h (sizes_of res)) log)) |}
                   ∈ JS.values (topSizes (run cs initial))).
      { apply elem_of_values. eexists. exact Hs. }
      rewrite Hnil in Hv. by apply elem_of_nil in Hv. }
    assert (Hin : ∀ r, r ∈ topTen ts_n (JS.values (topSizes (run cs initial))) →
                       ts_n r
                       = Z.of_nat (requests_for_size (ts_w r) (ts_h r)
                                     (accepted_log cs))
                       ∧ 1 ≤ ts_n r).
    { intros r [k Hk]%topTen_elem_of%elem_of_values.
      destruct (Hks k r Hk) as (-> & _). rewrite Hs in Hk.
      apply size_record_Some in Hk as [Hrec Hpos].
      apply (f_equal ts_n) in Hrec. simpl in Hrec. split; [done|lia]. }
    split; [exact Hin|].
    intros r0 Hhead w h.
    destruct (topTen ts_n _) as [|r1 out] eqn:Hout; [done|].
    injection Hhead as ->.
    destruct (requests_for_size w h (accepted_log cs)) as [|n] eqn:Hn.
    + destruct (Hin r0) as [_ Hpos]; [left|]. lia.
    + apply (topTen_first_is_maximal ts_n _ _ _ Hout
               {| ts_w := w; ts_h := h; ts_n := Z.of_nat (S n) |}).
      apply elem_of_values. exists (sizeKey w h). by rewrite Hs, Hn.
  - eexists. split; [done|].
    split.
    { rewrite topTen_length. unfold JS.values.
      by rewrite length_fmap, length_map_to_list. }
    assert (Hin : ∀ r,
              r ∈ topTen tr_n (JS.values (topReferrers (run cs initial))) →
              tr_n r
              = Z.of_nat (requests_for_referrer (tr_ref r) (accepted_log cs))
              ∧ 1 ≤ tr_n r).
    { intros r [k Hk]%topTen_elem_of%elem_of_values.
      destruct (Hkr k r Hk) as (-> & _). rewrite Hr in Hk.
      apply referrer_record_Some in Hk as [Hrec Hpos].
      apply (f_equal tr_n) in Hrec. simpl in Hrec. split; [done|lia]. }
    split; [exact Hin|].
    intros r0 Hhead k.
    destruct (topTen tr_n _) as [|r1 out] eqn:Hout; [done|].
    injection Hhead as ->.
    destruct (requests_for_referrer k (accepted_log cs)) as [|n] eqn:Hn.
    + destruct (Hin r0) as [_ Hpos]; [left|]. lia.
    + apply (topTen_first_is_maximal tr_n _ _ _ Hout
               {| tr_ref := k; tr_n := Z.of_nat (S n) |}).
      apply elem_of_values. exists k. by rewrite Hr, Hn.
Qed.

End Server.

(** ** The handlers on concrete requests *)

(** [GET /img/100/200], then the two size reads. *)
Example scenario_100_by_200 :
  handle JS.decimalToNumber imager_sends
    (GET_img (image_request "100" "200" None None None)) initial
  = (Image 100 200 None None,
     {| recentPaths := ["/img/100/200"];
        recentSizes := [{| size_w := 100; size_h := 200 |}];
        recentTexts := [];
        topSizes := {[ "100x200" := {| ts_w := 100; ts_h := 200; ts_n := 1 |} ]};
        topReferrers := ∅ |})
  ∧ (handle JS.decimalToNumber imager_sends GET_stats_sizes_top
       (handle JS.decimalToNumber imager_sends
          (GET_img (image_request "100" "200" None None None)) initial).2).1
    = Json (TopSizes [{| ts_w := 100; ts_h := 200; ts_n := 1 |}]).
Proof. split; vm_compute; reflexivity. Qed.

(** [GET /img/10/10?square=5&text=a b] with a referrer. *)
Example scenario_square_and_text :
  (handle JS.decimalToNumber imager_sends
     (GET_img (image_request "10" "10" (Some "5") (Some "a b")
                 (Some "http://example.org/"))) initial).2
  = {| recentPaths := ["/img/10/10?square=5&text=a%20b"];
       recentSizes := [{| size_w := 10; size_h := 10 |}];
       recentTexts := ["a b"];
       topSizes := {[ "10x10" := {| ts_w := 10; ts_h := 10; ts_n := 1 |} ]};
       topReferrers :=
         {[ "http://example.org/"
            := {| tr_ref := "http://example.org/"; tr_n := 1 |} ]} |}.
Proof. vm_compute. reflexivity. Qed.

(** ** The claims at concrete requests *)

Lemma too_large_is_forbidden_at_3000 :
  JS.decimalToNumber "3000"
    ∈ dimensions JS.decimalToNumber (image_request "3000" "100" None None None)
  ∧ JS.greater_than (JS.decimalToNumber "3000") 2000
  ∧ (get_img JS.decimalToNumber imager_sends
       (image_request "3000" "100" None None None) initial).1
    = SendStatus 403
  ∧ recentSizes
      (get_img JS.decimalToNumber imager_sends
         (image_request "3000" "100" None None None) initial).2
    = [].
Proof.
  assert (Hin : JS.decimalToNumber "3000"
                  ∈ dimensions JS.decimalToNumber
                      (image_request "3000" "100" None None None))
    by (apply dimensions_spec; left; reflexivity).
  assert (Hgt : JS.greater_than (JS.decimalToNumber "3000") 2000)
    by (vm_compute; reflexivity).
  destruct (too_large_is_forbidden JS.decimalToNumber imager_sends
              (image_request "3000" "100" None None None) initial
              (JS.decimalToNumber "3000") Hin Hgt)
    as (Hstatus & _ & Hsizes & _).
  exact (conj Hin (conj Hgt (conj Hstatus Hsizes))).
Defined.

(** [GET /img/10/1.5]: the height is not an integer. *)
Lemma invalid_dimension_at_one_and_a_half :
  JS.decimalToNumber "1.5"
    ∈ dimensions JS.decimalToNumber (image_request "10" "1.5" None None None)
  ∧ (get_img JS.decimalToNumber imager_sends
       (image_request "10" "1.5" None None None) initial).1
    = SendStatus 400
  ∧ recentSizes
      (get_img JS.decimalToNumber imager_sends
         (image_request "10" "1.5" None None None) initial).2
    = [].
Proof.
  assert (Hin : JS.decimalToNumber "1.5"
                  ∈ dimensions JS.decimalToNumber
                      (image_request "10" "1.5" None None None))
    by (apply dimensions_spec; right; left; reflexivity).
  assert (Hbad : ¬ JS.positive_integer (JS.decimalToNumber "1.5")).
  { change (JS.decimalToNumber "1.5") with (JS.Finite (15 # 10)).
    intros (z & Hz & Heq). unfold Qeq in Heq. simpl in Heq. lia. }
  assert (Hsmall : ∀ d, d ∈ dimensions JS.decimalToNumber
                              (image_request "10" "1.5" None None None) →
                        ¬ JS.greater_than d 2000).
  { intros d [->|[->|(s & [=] & _)]]%dimensions_spec; vm_compute; discriminate. }
  destruct (invalid_dimension_is_bad_request JS.decimalToNumber imager_sends
              (image_request "10" "1.5" None None None) initial
              (JS.decimalToNumber "1.5") Hin Hbad Hsmall)
    as (Hstatus & _ & Hsizes & _).
  exact (conj Hin (conj Hstatus Hsizes)).
Defined.

(** C2 as stated fails: [GET /img/0/3000] has a width that is not a positive
    integer, and is answered with 403, not 400. *)
Lemma zero_width_with_large_height_is_forbidden :
  JS.decimalToNumber "0"
    ∈ dimensions JS.decimalToNumber (image_request "0" "3000" None None None)
  ∧ ¬ JS.positive_integer (JS.decimalToNumber "0")
  ∧ (get_img JS.decimalToNumber imager_sends
       (image_request "0" "3000" None None None) initial).1
    = SendStatus 403
  ∧ (get_img JS.decimalToNumber imager_sends
       (image_request "0" "3000" None None None) initial).1
    ≠ SendStatus 400.
Proof.
  split; [apply dimensions_spec; left; reflexivity|].
  split.
  { change (JS.decimalToNumber "0") with (JS.of_Z 0).
    rewrite of_Z_positive_integer. lia. }
  split; [vm_compute; reflexivity|vm_compute; discriminate].
Qed.

(** [GET /img/100/200?square=]: rejected with 400. *)
Lemma empty_square_at_100_by_200 :
  JS.plus JS.decimalToNumber
    (req_square (image_request "100" "200" (Some "") None None))
  = JS.of_Z 0
  ∧ get_img JS.decimalToNumber imager_sends
      (image_request "100" "200" (Some "") None None) initial
    = (SendStatus 400, initial).
Proof.
  destruct (empty_square_is_rejected JS.decimalToNumber imager_sends
              (image_request "100" "200" (Some "") None None) initial
              eq_refl eq_refl)
    as (Hzero & _ & Hbad & _).
  split; [exact Hzero|].
  apply Hbad; vm_compute; discriminate.
Defined.

(** C9 as stated fails: [GET /img/3000/100?square=] has an empty square and
    is answered with 403, not 400. *)
Lemma empty_square_with_large_width_is_forbidden :
  req_square (image_request "3000" "100" (Some "") None None) = Some ""
  ∧ JS.plus JS.decimalToNumber
      (req_square (image_request "3000" "100" (Some "") None None))
    = JS.of_Z 0
  ∧ (get_img JS.decimalToNumber imager_sends
       (image_request "3000" "100" (Some "") None None) initial).1
    = SendStatus 403
  ∧ (get_img JS.decimalToNumber imager_sends
       (image_request "3000" "100" (Some "") None None) initial).1
    ≠ SendStatus 400.
Proof.
  split; [reflexivity|]. split; [reflexivity|].
  split; [vm_compute; reflexivity|vm_compute; discriminate].
Qed.

(** [GET /img/100/200], accepted. *)
Lemma recentSizes_after_100_by_200 :
  recentSizes
    (get_img JS.decimalToNumber imager_sends
       (image_request "100" "200" None None None) initial).2 !! 0%nat
  = Some {| size_w := 100; size_h := 200 |}.
Proof.
  exact (proj2 (proj2
    (recentSizes_after_accepted JS.decimalToNumber imager_sends
       (image_request "100" "200" None None None)
       {| params := {| width := 100; height := 200 |};
          queries := {| square := None; text := None |} |}
       initial eq_refl))).
Defined.

(** [GET /img/10/10?text=+]: a single space is recorded. *)
Lemma plus_text_is_a_space :
  recentTexts
    (applyRecentTexts
       {| params := {| width := 10; height := 10 |};
          queries := {| square := None; text := Some " " |} |} initial) !! 0%nat
  = Some " "
  ∧ validateInputs JS.decimalToNumber
      (image_request "10" "10" None (Some "+") None)
    = inr {| params := {| width := 10; height := 10 |};
             queries := {| square := None; text := Some " " |} |}.
Proof.
  destruct (text_is_normalised_and_recorded JS.decimalToNumber imager_sends)
    as (_ & Hfront & _).
  split; [|vm_compute; reflexivity].
  apply Hfront; [reflexivity|discriminate].
Defined.

(** A request with a referrer raises that referrer's count by one. *)
Lemma referrer_counted_once :
  count_of tr_n
    (topReferrers
       (get_img JS.decimalToNumber imager_sends
          (image_request "100" "200" None None (Some "http://example.org/"))
          initial).2)
    "http://example.org/"
  = count_of tr_n (topReferrers initial) "http://example.org/" + 1.
Proof.
  destruct (counters_are_positive_and_monotone JS.decimalToNumber imager_sends)
    as (_ & _ & Href & _).
  destruct (Href (image_request "100" "200" None None (Some "http://example.org/"))
              {| params := {| width := 100; height := 200 |};
                 queries := {| square := None; text := None |} |}
              initial "http://example.org/") as [Hcount _];
    [vm_compute; reflexivity|reflexivity|discriminate|vm_compute; reflexivity|].
  exact Hcount.
Defined.

(** C5 as stated fails: an accepted request whose referrer header is present
    with an empty value, or is a name that every object inherits, leaves
    [topReferrers] without any record. *)
Lemma referrer_present_and_not_counted :
  (accepted JS.decimalToNumber
     (GET_img (image_request "100" "200" None None (Some ""))) = true
   ∧ req_referer (image_request "100" "200" None None (Some "")) = Some ""
   ∧ topReferrers
       (get_img JS.decimalToNumber imager_sends
          (image_request "100" "200" None None (Some "")) initial).2
     = ∅)
  ∧ (accepted JS.decimalToNumber
       (GET_img (image_request "100" "200" None None (Some "constructor")))
     = true
     ∧ req_referer (image_request "100" "200" None None (Some "constructor"))
       = Some "constructor"
     ∧ topReferrers
         (get_img JS.decimalToNumber imager_sends
            (image_request "100" "200" None None (Some "constructor"))
            initial).2
       = ∅).
Proof. repeat split; vm_compute; reflexivity. Qed.

(** After a reset, a rejected image request and a read leave an empty
    answer. *)
Lemma reads_after_reset_are_empty :
  ∃ p,
    (handle JS.decimalToNumber imager_sends GET_stats_sizes_recent
       (run JS.decimalToNumber imager_sends
          [GET_img (image_request "3000" "100" None None None);
           GET_stats_paths_recent]
          (handle JS.decimalToNumber imager_sends DELETE_stats
             (handle JS.decimalToNumber imager_sends
                (GET_img (image_request "100" "200" None None None))
                initial).2).2)).1
    = Json p
    ∧ payload_length p = 0%nat.
Proof.
  destruct (reset_empties_the_store JS.decimalToNumber imager_sends
              (handle JS.decimalToNumber imager_sends
                 (GET_img (image_request "100" "200" None None None))
                 initial).2)
    as (_ & _ & _ & _ & _ & _ & Hreads).
  apply Hreads; [|reflexivity].
  intros c' Hc'. repeat (apply elem_of_cons in Hc' as [->|Hc']); [reflexivity..|].
  by apply elem_of_nil in Hc'.
Defined.

(** The top-sizes answer after [GET /img/100/200]: the one record of the
    table, also in the enumeration of the table itself. *)
Lemma top_sizes_after_100_by_200 :
  (∃ out,
     (serveTopSizes
        (get_img JS.decimalToNumber imager_sends
           (image_request "100" "200" None None None) initial).2).1
     = Json (TopSizes out)
     ∧ length out = 1%nat
     ∧ ∀ r, r ∈ out →
            ∃ k, topSizes
                   (get_img JS.decimalToNumber imager_sends
                      (image_request "100" "200" None None None) initial).2
                   !! k = Some r)
  ∧ ranked ts_n
      (topTen ts_n
         (JS.values
            (topSizes
               (get_img JS.decimalToNumber imager_sends
                  (image_request "100" "200" None None None) initial).2)))
      (JS.values
         (topSizes
            (get_img JS.decimalToNumber imager_sends
               (image_request "100" "200" None None None) initial).2)).
Proof.
  destruct (top_endpoints_rank_and_only_read
              (get_img JS.decimalToNumber imager_sends
                 (image_request "100" "200" None None None) initial).2)
    as ((out & Hout & _ & Hlen & Hin & _) & _ & Hany & _).
  split.
  - exists out. split; [by rewrite Hout|]. split; [exact Hlen|exact Hin].
  - apply Hany. reflexivity.
Defined.

(** ** The imager *)

(** X18. The stats of a request do not depend on the imager: the store
    after an image request is the same whether the imager sends the image
    or throws, and an accepted request whose imager throws is answered with
    status 500 with its size recorded first in [recentSizes]. *)
Theorem stats_do_not_depend_on_the_imager
    (ToNumber : string → JS.Number)
    (send send' : Z → Z → option Z → option string → bool)
    (req : Request) (app : Store) :
  (get_img ToNumber send req app).2 = (get_img ToNumber send' req app).2
  ∧ ∀ res,
      validateInputs ToNumber req = inr res →
      send (width (params res)) (height (params res)) (square (queries res))
        (text (queries res)) = false →
      (get_img ToNumber send req app).1 = SendStatus 500
      ∧ recentSizes (get_img ToNumber send req app).2 !! 0%nat
        = Some (sizes_of res).
Proof.
  split.
  - unfold get_img. by destruct (validateInputs ToNumber req).
  - intros res Hv Hthrows.
    destruct (get_img_accepted ToNumber send req res app Hv)
      as (-> & _ & -> & _).
    split; [|apply applyRecentSizes_head].
    unfold serveImage. by rewrite Hthrows.
Qed.

(** ** The further properties at concrete requests *)

(** Eleven image requests, [/img/1/1] to [/img/11/1]. *)
Definition eleven_requests : list Call :=
  (λ w, GET_img (image_request w "1" None None None))
    <$> ["1"; "2"; "3"; "4"; "5"; "6"; "7"; "8"; "9"; "10"; "11"].

Lemma validated_locals_at_100_by_200_square_50 :
  (denotes (JS.decimalToNumber "100") 100 ∧ 1 ≤ 100 ≤ 2000)
  ∧ (denotes (JS.decimalToNumber "200") 200 ∧ 1 ≤ 200 ≤ 2000)
  ∧ ∃ z, Some 50 = Some z ∧ denotes (JS.decimalToNumber "50") z
         ∧ 1 ≤ z ≤ 2000.
Proof.
  exact (validated_locals_are_in_range JS.decimalToNumber
           (image_request "100" "200" (Some "50") None None)
           {| params := {| width := 100; height := 200 |};
              queries := {| square := Some 50; text := None |} |}
           eq_refl).
Defined.

Lemma recent_lists_bounded_after_eleven_requests :
  (length
     (recentSizes
        (run JS.decimalToNumber imager_sends eleven_requests initial))
   ≤ 10)%nat
  ∧ NoDup
      (recentSizes
         (run JS.decimalToNumber imager_sends eleven_requests initial)).
Proof.
  destruct (recent_lists_stay_bounded JS.decimalToNumber imager_sends
              (run JS.decimalToNumber imager_sends eleven_requests initial)
              (run_reachable JS.decimalToNumber imager_sends eleven_requests))
    as (_ & (Hnd & Hlen & _) & _).
  exact (conj Hlen Hnd).
Defined.

(** Three requests with the texts [a], [b], [a]: one [a] is kept. *)
Lemma repeated_text_is_recorded_once :
  recentTexts
    (run JS.decimalToNumber imager_sends
       [GET_img (image_request "10" "10" None (Some "a") None);
        GET_img (image_request "10" "10" None (Some "b") None);
        GET_img (image_request "10" "10" None (Some "a") None)]
       initial)
  = ["a"; "b"]
  ∧ ∀ i j t,
      recentTexts
        (run JS.decimalToNumber imager_sends
           [GET_img (image_request "10" "10" None (Some "a") None);
            GET_img (image_request "10" "10" None (Some "b") None);
            GET_img (image_request "10" "10" None (Some "a") None)]
           initial) !! i = Some t →
      recentTexts
        (run JS.decimalToNumber imager_sends
           [GET_img (image_request "10" "10" None (Some "a") None);
            GET_img (image_request "10" "10" None (Some "b") None);
            GET_img (image_request "10" "10" None (Some "a") None)]
           initial) !! j = Some t →
      i = j.
Proof.
  split; [vm_compute; reflexivity|].
  apply (recorded_strings_are_distinct JS.decimalToNumber imager_sends).
  apply run_reachable.
Defined.

Lemma ten_sizes_NoDup : NoDup ten_sizes.
Proof. refine (bool_decide_unpack _ _); vm_compute; exact I. Qed.

Lemma move_to_front_of_ten_sizes :
  recentSizes (applyRecentSizes (plain_locals 3 1) store_of_ten_sizes)
  = (λ w, {| size_w := w; size_h := 1 |})
      <$> [3; 10; 9; 8; 7; 6; 5; 4; 2; 1].
Proof.
  destruct (recent_stages_move_to_front
              (image_request "3" "1" None None None) (plain_locals 3 1)
              store_of_ten_sizes NoDup_nil_2 ten_sizes_NoDup NoDup_nil_2)
    as (_ & Hsizes & _).
  rewrite Hsizes. vm_compute. reflexivity.
Defined.

Lemma eleventh_size_evicts_the_first :
  recentSizes (applyRecentSizes (plain_locals 11 1) store_of_ten_sizes)
  = (λ w, {| size_w := w; size_h := 1 |})
      <$> [11; 10; 9; 8; 7; 6; 5; 4; 3; 2].
Proof.
  destruct (recent_sizes_evict_the_oldest (plain_locals 11 1)
              store_of_ten_sizes ten_sizes_NoDup)
    as (Hevict & _).
  { vm_compute. lia. }
  rewrite Hevict; [reflexivity| |reflexivity].
  refine (bool_decide_unpack _ _); vm_compute; exact I.
Defined.

Lemma eleven_requests_list_the_last_ten :
  recentSizes (run JS.decimalToNumber imager_sends eleven_requests initial)
  = (λ w, {| size_w := w; size_h := 1 |})
      <$> [11; 10; 9; 8; 7; 6; 5; 4; 3; 2].
Proof.
  apply (distinct_sizes_are_all_listed JS.decimalToNumber imager_sends
           eleven_requests).
  refine (bool_decide_unpack _ _); vm_compute; exact I.
Defined.

Lemma tables_consistent_after_eleven_requests :
  tables_consistent
    (run JS.decimalToNumber imager_sends eleven_requests initial).
Proof.
  apply (table_records_match_their_keys JS.decimalToNumber imager_sends).
  apply run_reachable.
Defined.

Lemma eleventh_size_is_counted :
  ∃ n,
    topSizes (run JS.decimalToNumber imager_sends eleven_requests initial)
      !! sizeKey 11 1
    = Some {| ts_w := 11; ts_h := 1; ts_n := n |}
    ∧ 1 ≤ n.
Proof.
  apply (recent_sizes_are_counted JS.decimalToNumber imager_sends
           (run JS.decimalToNumber imager_sends eleven_requests initial)
           {| size_w := 11; size_h := 1 |}).
  - apply run_reachable.
  - apply list_elem_of_lookup_2 with 0%nat. vm_compute. reflexivity.
Defined.

Lemma empty_text_and_no_text_share_a_url :
  url_of (image_request "10" "10" None (Some "") None)
    {| params := {| width := 10; height := 10 |};
       queries := {| square := None; text := Some "" |} |}
  = url_of (image_request "10" "10" None None None) (plain_locals 10 10).
Proof.
  apply (recorded_url_tells_the_query
           (image_request "10" "10" None (Some "") None)
           {| params := {| width := 10; height := 10 |};
              queries := {| square := None; text := Some "" |} |}
           (image_request "10" "10" None None None) (plain_locals 10 10)
           eq_refl).
  split; reflexivity.
Defined.
